(** * Canonical stringification of abstract values (helios-ir)

    A shallow embedding of [src/analyze/values/stringify.js]:
    [stringifyCall], [stringifyStackValues] and the iterative,
    cache-aware, depth-bounded [stringifyValue].

    Conventions of the embedding.
    - A JS object reference is an [Ident]; every [Value] node carries the
      identity of the object it stands for, and the [Map<Value, string>]
      cache is a finite map keyed by that identity.  A value graph with
      sharing is represented by its unfolding: two occurrences of the same
      object carry the same identity (see [coherent]).
    - JS numbers that are used as tags and depths are non-negative
      integers ([N]); [pretty] is their decimal rendering, which is what
      string concatenation with a number produces for such integers.
    - The [frames] array is a list whose head is the top of the stack
      ([push] is cons, [pop] removes the head).
    - The [while (true)] loop is iterated by [loop], which is given fuel;
      the theorems show that enough fuel always exists. *)

From stdpp Require Import gmap strings list pretty.

(** ** Data model *)

(** Object identity of a JS value. *)
Abbreviation Ident := positive.

(** Modelled from the spec: [StackValues.js] is not part of the sources, so
    the type of a binding identifier is not visible.  The spec speaks of a
    [bindingId] and shows both numeric ids and names; the only thing the
    stringifier does with an id is to concatenate it to a string. *)
Inductive BindingId : Type :=
| NumId (n : N)
| StrId (s : string).

(** String conversion of a binding id under [id + ": "] and [`${id}: `]. *)
Definition idText (id : BindingId) : string :=
  match id with
  | NumId n => pretty n
  | StrId s => s
  end.

(** The classes tested by the [instanceof] chain of [stringifyValue].  The
    five leaf classes are opaque objects here (their fields are not read by
    the stringifier, only their [toString] method is called).
    [ForeignValue] stands for any object that is an instance of none of the
    eight classes.  [prefix] is the string [value.prefix] evaluates to,
    [definitionTag] is [value.definitionTag] and [stack] is the array
    [value.stack.values.values]. *)
#[warnings="-register-all"]
Inductive Value : Type :=
| AnyValue (self : Ident)
| DataValue (self : Ident)
| LiteralValue (self : Ident)
| ErrorValue (self : Ident)
| BuiltinValue (self : Ident)
| MaybeErrorValue (self : Ident) (value : Value)
| BranchedValue (self : Ident) (prefix : string) (condition : Value)
    (cases : list Value)
| FuncValue (self : Ident) (definitionTag : N)
    (stack : list (BindingId * Value))
| ForeignValue (self : Ident).

Definition ident (v : Value) : Ident :=
  match v with
  | AnyValue i | DataValue i | LiteralValue i | ErrorValue i
  | BuiltinValue i | MaybeErrorValue i _ | BranchedValue i _ _ _
  | FuncValue i _ _ | ForeignValue i => i
  end.

(** [StackValues]: the object whose [values] field is the binding array. *)
Record StackValues : Type := { sv_values : list (BindingId * Value) }.

(** [BlockRecursionProps = {tag: number, maxDepth: number}]. *)
Record BlockRecursionProps : Type := { tag : N; maxDepth : N }.

(** [Map<Value, string>], keyed by object identity. *)
Abbreviation Cache := (gmap Ident string).

(** A JS call either returns or throws. *)
Inductive Result (A : Type) : Type :=
| Ok (a : A)
| Throw (msg : string).
Arguments Ok {A} a.
Arguments Throw {A} msg.

(** [ComputeItem = {value, depth}]. *)
Record ComputeItem : Type := { value : Value; depth : N }.

(** [state] is either [{compute: ComputeItem}] or [{reduce: {item}}]. *)
Inductive State : Type :=
| compute (c : ComputeItem)
| reduce (item : string).

(** [Frame = {owner, values, stringifiedValues, fn}]. *)
Record Frame : Type := {
  owner : Value;
  values : list ComputeItem;
  stringifiedValues : list string;
  fn : list string -> Result string
}.

(** ** Small JS helpers *)

(** [arr.join(sep)] on an array of strings. *)
Definition join (sep : string) (items : list string) : string :=
  String.concat sep items.

(** [items[0]] used in a string concatenation: a missing element is
    [undefined], which concatenates as the text "undefined". *)
Definition item0 (items : list string) : string :=
  match items with
  | [] => "undefined"
  | s :: _ => s
  end.

(** [cache?.get(value)]: [undefined] when no cache is supplied or the key is
    absent. *)
Definition cacheGet (cache : option Cache) (v : Value) : option string :=
  match cache with
  | Some c => c !! ident v
  | None => None
  end.

(** [if (cached)]: the test is JS truthiness, so [undefined] and the empty
    string both take the else branch. *)
Definition truthy (cached : option string) : option string :=
  match cached with
  | Some EmptyString => None
  | Some s => Some s
  | None => None
  end.

(** [if (cache && frame.owner) cache.set(frame.owner, s)]: a frame's owner is
    always an object, hence truthy. *)
Definition cacheSet (cache : option Cache) (v : Value) (s : string)
  : option Cache :=
  match cache with
  | Some c => Some (<[ident v := s]> c)
  | None => None
  end.

(** [blockRecursion && value.definitionTag == blockRecursion.tag]. *)
Definition tagBlocked (br : option BlockRecursionProps) (t : N) : bool :=
  match br with
  | Some b => bool_decide (t = tag b)
  | None => false
  end.

(** [blockRecursion && value.definitionTag == blockRecursion.tag &&
     depth == blockRecursion.maxDepth]. *)
Definition cutoffHit (br : option BlockRecursionProps) (t d : N) : bool :=
  match br with
  | Some b => bool_decide (t = tag b) && bool_decide (d = maxDepth b)
  | None => false
  end.

(** [newDepth]. *)
Definition newDepth (br : option BlockRecursionProps) (t d : N) : N :=
  if tagBlocked br t then (d + 1)%N else d.

(** ** The three combinators stored in frames *)

(** [(items) => "(" + items[0] + " | Error)"]. *)
Definition fnMaybeError (items : list string) : Result string :=
  Ok ("(" +:+ item0 items +:+ " | Error)").

(** [(items) => value.prefix + "(" + items[0] + ", " +
     items.slice(1).join(", ") + ")"]. *)
Definition fnBranched (prefix : string) (items : list string)
  : Result string :=
  Ok (prefix +:+ "(" +:+ item0 items +:+ ", " +:+ join ", " (drop 1 items)
      +:+ ")").

(** [items.map((item, i) => value.stack.values.values[i][0] + ": " + item)],
    started at index [i].  Reading [[0]] of a missing entry raises a
    [TypeError]; that is the [None] here. *)
Fixpoint stackEntries (stack : list (BindingId * Value)) (i : nat)
    (items : list string) : option (list string) :=
  match items with
  | [] => Some []
  | item :: rest =>
      match stack !! i with
      | Some (id, _) =>
          match stackEntries stack (S i) rest with
          | Some l => Some ((idText id +:+ ": " +:+ item) :: l)
          | None => None
          end
      | None => None
      end
  end.

(** [(items) => "Fn" + value.definitionTag + "[" + stackEntries.join(", ")
     + "]"]. *)
Definition fnFunc (t : N) (stack : list (BindingId * Value))
    (items : list string) : Result string :=
  match stackEntries stack 0 items with
  | Some entries => Ok ("Fn" +:+ pretty t +:+ "[" +:+ join ", " entries +:+ "]")
  | None => Throw "TypeError"
  end.

(** ** The engine *)

(** What one iteration of the [while (true)] loop does. *)
Inductive Step : Type :=
| Continue (state : State) (frames : list Frame) (cache : option Cache)
| Break (state : State) (cache : option Cache)
| Raise (msg : string) (cache : option Cache).

Section Engine.

(** The [toString] method of a value.  The classes that define it are not
    part of the sources, so it is a parameter of the development. *)
Variable toString : Value -> string.

(** [stringifyCall(fn, args)]. *)
Definition stringifyCall (fn : Value) (args : list Value) : string :=
  toString fn +:+ "(" +:+ join ", " (map (fun a => toString a) args) +:+ ")".

(** The frame pushed for a composite value whose children are [first] and
    [rest], all to be computed at depth [d]. *)
Definition pushFrame (v : Value) (first : ComputeItem)
    (rest : list ComputeItem) (f : list string -> Result string) : Frame :=
  {| owner := v; values := first :: rest; stringifiedValues := [];
     fn := f |}.

(** The body of the loop of [stringifyValue]: the [compute] branch
    (lines 93-227) and the [reduce] branch (lines 228-257). *)
Definition loopBody (blockRecursion : option BlockRecursionProps)
    (state : State) (frames : list Frame) (cache : option Cache) : Step :=
  match state with
  | compute c =>
      let v := value c in
      let d := depth c in
      match truthy (cacheGet cache v) with
      | Some cached => Continue (reduce cached) frames cache
      | None =>
          match v with
          | AnyValue _ | DataValue _ | LiteralValue _ | ErrorValue _
          | BuiltinValue _ =>
              Continue (reduce (toString v)) frames cache
          | MaybeErrorValue _ inner =>
              let first := {| value := inner; depth := d |} in
              Continue (compute {| value := inner; depth := d |})
                (pushFrame v first [] fnMaybeError :: frames) cache
          | BranchedValue _ prefix cond cases =>
              let first := {| value := cond; depth := d |} in
              Continue (compute first)
                (pushFrame v first
                   (map (fun c => {| value := c; depth := d |}) cases)
                   (fnBranched prefix) :: frames) cache
          | FuncValue _ t stack =>
              if cutoffHit blockRecursion t d then
                Continue (reduce ("Fn" +:+ pretty t)) frames cache
              else
                match stack with
                | [] =>
                    Continue (reduce ("Fn" +:+ pretty t +:+ "[]")) frames cache
                | (_, v0) :: rest =>
                    let nd := newDepth blockRecursion t d in
                    let first := {| value := v0; depth := nd |} in
                    Continue (compute first)
                      (pushFrame v first
                         (map (fun e => {| value := e.2; depth := nd |}) rest)
                         (fnFunc t stack) :: frames) cache
                end
          | ForeignValue _ => Raise "unhandled value type" cache
          end
      end
  | reduce item =>
      match frames with
      | [] => Break state cache
      | frame :: frames' =>
          let strs := (stringifiedValues frame ++ [item])%list in
          if bool_decide (length strs = length (values frame)) then
            match fn frame strs with
            | Ok s => Continue (reduce s) frames' (cacheSet cache (owner frame) s)
            | Throw msg => Raise msg cache
            end
          else
            match values frame !! length strs with
            | Some nextValue =>
                Continue (compute nextValue)
                  ({| owner := owner frame; values := values frame;
                      stringifiedValues := strs; fn := fn frame |} :: frames')
                  cache
            | None =>
                (* [state = {compute: undefined}]: destructuring it at the
                   top of the next iteration raises *)
                Raise "TypeError" cache
            end
      end
  end.

(** What follows the loop (lines 260-264). *)
Definition afterLoop (state : State) : Result string :=
  match state with
  | reduce item => Ok item
  | compute _ => Throw "unexpected"
  end.

(** The loop, iterated at most [fuel] times; [None] when the fuel runs out
    before the loop is left. *)
Fixpoint loop (fuel : nat) (blockRecursion : option BlockRecursionProps)
    (state : State) (frames : list Frame) (cache : option Cache)
  : option (Result string * option Cache) :=
  match fuel with
  | O => None
  | S fuel' =>
      match loopBody blockRecursion state frames cache with
      | Continue state' frames' cache' =>
          loop fuel' blockRecursion state' frames' cache'
      | Break state' cache' => Some (afterLoop state', cache')
      | Raise msg cache' => Some (Throw msg, cache')
      end
  end.

(** [stringifyValue(value, blockRecursion = None, cache = None)]: the result
    of the call together with the cache as the call leaves it. *)
Definition stringifyValue (fuel : nat) (v : Value)
    (blockRecursion : option BlockRecursionProps) (cache : option Cache)
  : option (Result string * option Cache) :=
  loop fuel blockRecursion (compute {| value := v; depth := 0 |}) [] cache.

(** [stringifyStackValues(values, blockRecursion, cache)]: [map] calls
    [stringifyValue] on the bindings from left to right with the same
    cutoff and the same cache object; [items] collects the entries. *)
Fixpoint stackItems (fuel : nat) (entries : list (BindingId * Value))
    (blockRecursion : option BlockRecursionProps) (cache : option Cache)
  : option (Result (list string) * option Cache) :=
  match entries with
  | [] => Some (Ok [], cache)
  | (id, v) :: rest =>
      match stringifyValue fuel v blockRecursion cache with
      | Some (Ok item, cache1) =>
          match stackItems fuel rest blockRecursion cache1 with
          | Some (Ok items, cache2) =>
              Some (Ok ((idText id +:+ ": " +:+ item) :: items), cache2)
          | other => other
          end
      | Some (Throw msg, cache1) => Some (Throw msg, cache1)
      | None => None
      end
  end.

Definition stringifyStackValues (fuel : nat) (vals : StackValues)
    (blockRecursion : option BlockRecursionProps) (cache : option Cache)
  : option (Result string * option Cache) :=
  match stackItems fuel (sv_values vals) blockRecursion cache with
  | Some (Ok items, cache') => Some (Ok ("[" +:+ join ", " items +:+ "]"), cache')
  | Some (Throw msg, cache') => Some (Throw msg, cache')
  | None => None
  end.

End Engine.

(** ** A recursive account of the traversal

    The machine above is what the source runs.  To reason about it we use the
    recursive descent that it replaces: [evalValue] visits the children of a
    composite value from left to right, threads the cache through, and stops
    at the first throw.  [engine_simulated] and [stringifyValue_evalValue]
    below relate the two. *)

Section EvalList.

Context {A : Type}.
Variable visit : A -> option Cache -> Result string * option Cache.

(** Visit every element in order, collecting the strings. *)
Fixpoint evalList (l : list A) (cache : option Cache)
  : Result (list string) * option Cache :=
  match l with
  | [] => (Ok [], cache)
  | x :: rest =>
      match visit x cache with
      | (Ok s, cache1) =>
          match evalList rest cache1 with
          | (Ok strs, cache2) => (Ok (s :: strs), cache2)
          | (Throw msg, cache2) => (Throw msg, cache2)
          end
      | (Throw msg, cache1) => (Throw msg, cache1)
      end
  end.

End EvalList.

(** Apply the combinator of [v] to its children's strings and record the
    result in the cache. *)
Definition combine (v : Value) (f : list string -> Result string)
    (r : Result (list string) * option Cache) : Result string * option Cache :=
  match r with
  | (Ok strs, cache) =>
      match f strs with
      | Ok s => (Ok s, cacheSet cache v s)
      | Throw msg => (Throw msg, cache)
      end
  | (Throw msg, cache) => (Throw msg, cache)
  end.

Section Eval.

Variable toString : Value -> string.
Variable br : option BlockRecursionProps.

Fixpoint evalValue (v : Value) (d : N) (cache : option Cache) {struct v}
  : Result string * option Cache :=
  match truthy (cacheGet cache v) with
  | Some cached => (Ok cached, cache)
  | None =>
      match v with
      | AnyValue _ | DataValue _ | LiteralValue _ | ErrorValue _
      | BuiltinValue _ => (Ok (toString v), cache)
      | MaybeErrorValue _ inner =>
          combine v fnMaybeError
            (evalList (fun x => evalValue x d) [inner] cache)
      | BranchedValue _ prefix cond cases =>
          combine v (fnBranched prefix)
            (evalList (fun x => evalValue x d) (cond :: cases) cache)
      | FuncValue _ t stack =>
          if cutoffHit br t d then (Ok ("Fn" +:+ pretty t), cache)
          else
            match stack with
            | [] => (Ok ("Fn" +:+ pretty t +:+ "[]"), cache)
            | _ :: _ =>
                combine v (fnFunc t stack)
                  (evalList (fun e => evalValue e.2 (newDepth br t d))
                     stack cache)
            end
      | ForeignValue _ => (Throw "unhandled value type", cache)
      end
  end.

End Eval.

(** ** Induction over value graphs *)

Section ValueInduction.

Variable P : Value -> Prop.
Hypothesis HAny : forall i, P (AnyValue i).
Hypothesis HData : forall i, P (DataValue i).
Hypothesis HLiteral : forall i, P (LiteralValue i).
Hypothesis HError : forall i, P (ErrorValue i).
Hypothesis HBuiltin : forall i, P (BuiltinValue i).
Hypothesis HMaybe : forall i inner, P inner -> P (MaybeErrorValue i inner).
Hypothesis HBranched : forall i prefix cond cases,
  P cond -> Forall P cases -> P (BranchedValue i prefix cond cases).
Hypothesis HFunc : forall i t stack,
  Forall (fun e => P e.2) stack -> P (FuncValue i t stack).
Hypothesis HForeign : forall i, P (ForeignValue i).

Fixpoint Value_nested_ind (v : Value) : P v :=
  match v with
  | AnyValue i => HAny i
  | DataValue i => HData i
  | LiteralValue i => HLiteral i
  | ErrorValue i => HError i
  | BuiltinValue i => HBuiltin i
  | MaybeErrorValue i inner => HMaybe i inner (Value_nested_ind inner)
  | BranchedValue i prefix cond cases =>
      HBranched i prefix cond cases (Value_nested_ind cond)
        ((fix go (l : list Value) : Forall P l :=
            match l with
            | [] => List.Forall_nil P
            | x :: r => List.Forall_cons P x r (Value_nested_ind x) (go r)
            end) cases)
  | FuncValue i t stack =>
      HFunc i t stack
        ((fix go (l : list (BindingId * Value))
            : Forall (fun e => P e.2) l :=
            match l with
            | [] => List.Forall_nil _
            | e :: r =>
                List.Forall_cons (fun e => P e.2) e r
                  (Value_nested_ind e.2) (go r)
            end) stack)
  | ForeignValue i => HForeign i
  end.

End ValueInduction.

(** ** Value graphs: nodes, sharing, foreign objects *)

(** The direct children of a value, in the order the engine visits them. *)
Definition children (v : Value) : list Value :=
  match v with
  | MaybeErrorValue _ inner => [inner]
  | BranchedValue _ _ cond cases => cond :: cases
  | FuncValue _ _ stack => map snd stack
  | _ => []
  end.

(** Every node of the graph rooted at [v], [v] included. *)
Fixpoint subvalues (v : Value) : list Value :=
  v ::
  match v with
  | MaybeErrorValue _ inner => subvalues inner
  | BranchedValue _ _ cond cases =>
      (subvalues cond ++ (cases ≫= subvalues))%list
  | FuncValue _ _ stack => stack ≫= (fun e => subvalues e.2)
  | _ => []
  end.

(** Identity is object identity: two nodes of the unfolding that carry the
    same identity are the same object. *)
Definition coherent (root : Value) : Prop :=
  forall a b,
    a ∈ subvalues root -> b ∈ subvalues root -> ident a = ident b -> a = b.

(** The graph contains an object that is none of the eight classes. *)
Fixpoint containsForeign (v : Value) : bool :=
  match v with
  | ForeignValue _ => true
  | MaybeErrorValue _ inner => containsForeign inner
  | BranchedValue _ _ cond cases =>
      containsForeign cond || existsb containsForeign cases
  | FuncValue _ _ stack => existsb (fun e => containsForeign e.2) stack
  | _ => false
  end.

(** The combinator the engine stores in the frame of a composite value;
    [None] for the values that never own a frame. *)
Definition combinatorOf (v : Value) : option (list string -> Result string) :=
  match v with
  | MaybeErrorValue _ _ => Some fnMaybeError
  | BranchedValue _ prefix _ _ => Some (fnBranched prefix)
  | FuncValue _ t (e :: rest) => Some (fnFunc t (e :: rest))
  | _ => None
  end.

(** Depth at which the children of [v] are recorded when [v] is computed at
    depth [d], and whether [v] is cut off there. *)
Definition childDepth (br : option BlockRecursionProps) (v : Value) (d : N)
  : N :=
  match v with
  | FuncValue _ t _ => newDepth br t d
  | _ => d
  end.

Definition isCut (br : option BlockRecursionProps) (v : Value) (d : N)
  : bool :=
  match v with
  | FuncValue _ t _ => cutoffHit br t d
  | _ => false
  end.

(** The cutoff is never hit while [v] is traversed from depth [d]: no closure
    of the blocked definition is met at depth [maxDepth].  This is the case
    when there is no cutoff, and when [maxDepth] exceeds the number of
    nested closures of the blocked definition. *)
Fixpoint cutoffNeverHit (br : option BlockRecursionProps) (v : Value) (d : N)
  : bool :=
  match v with
  | MaybeErrorValue _ inner => cutoffNeverHit br inner d
  | BranchedValue _ _ cond cases =>
      cutoffNeverHit br cond d
      && forallb (fun x => cutoffNeverHit br x d) cases
  | FuncValue _ t stack =>
      negb (cutoffHit br t d)
      && forallb (fun e => cutoffNeverHit br e.2 (newDepth br t d)) stack
  | _ => true
  end.

(** The largest number of closures of definition [t] nested in one another
    along a path of the graph. *)
Fixpoint closureNesting (t : N) (v : Value) : N :=
  match v with
  | MaybeErrorValue _ inner => closureNesting t inner
  | BranchedValue _ _ cond cases =>
      N.max (closureNesting t cond)
        (foldr N.max 0%N (map (closureNesting t) cases))
  | FuncValue _ t' stack =>
      ((if bool_decide (t' = t) then 1 else 0)
       + foldr N.max 0 (map (fun e => closureNesting t e.2) stack))%N
  | _ => 0%N
  end.

(** The traversal without a cache reaches a foreign object: none of the
    closures that enclose it is cut off. *)
Fixpoint visitsForeign (br : option BlockRecursionProps) (v : Value) (d : N)
  : bool :=
  match v with
  | ForeignValue _ => true
  | MaybeErrorValue _ inner => visitsForeign br inner d
  | BranchedValue _ _ cond cases =>
      visitsForeign br cond d || existsb (fun x => visitsForeign br x d) cases
  | FuncValue _ t stack =>
      negb (cutoffHit br t d)
      && existsb (fun e => visitsForeign br e.2 (newDepth br t d)) stack
  | _ => false
  end.

(** The visits of a traversal without a cache that computes [v] at depth
    [d]: every occurrence of a node, with the depth at which it is computed.
    The environment of a closure that is cut off is not entered. *)
Fixpoint visits (br : option BlockRecursionProps) (v : Value) (d : N)
  : list (Value * N) :=
  (v, d) ::
  match v with
  | MaybeErrorValue _ inner => visits br inner d
  | BranchedValue _ _ cond cases =>
      (visits br cond d ++ (cases ≫= (fun x => visits br x d)))%list
  | FuncValue _ t stack =>
      if cutoffHit br t d then []
      else stack ≫= (fun e => visits br e.2 (newDepth br t d))
  | _ => []
  end.

(** Every object of the graph is met at one depth only: two visits that
    carry the same identity are visits of the same object at the same
    depth. *)
Definition levelled (br : option BlockRecursionProps) (root : Value) : Prop :=
  forall w d w' d',
    (w, d) ∈ visits br root 0 -> (w', d') ∈ visits br root 0 ->
    ident w = ident w' -> w = w' /\ d = d'.

(** [r] is the fault of the [else] branch of the [instanceof] chain exactly
    when [b] holds, and a string otherwise. *)
Definition throwsWhen {A} (r : Result A) (b : bool) : Prop :=
  match r with
  | Throw msg => msg = "unhandled value type" /\ b = true
  | Ok _ => b = false
  end.

(** ** The canonical form as a recursive function

    [renderValue] is the textual form described by the algorithm's steps
    2 to 6, written as the recursive descent that the frame stack replaces:
    [level] counts the closures of the blocked definition that enclose the
    value. *)

Section RenderList.

Context {A : Type}.
Variable render : A -> Result string.

Fixpoint renderList (l : list A) : Result (list string) :=
  match l with
  | [] => Ok []
  | x :: rest =>
      match render x with
      | Ok s =>
          match renderList rest with
          | Ok strs => Ok (s :: strs)
          | Throw msg => Throw msg
          end
      | Throw msg => Throw msg
      end
  end.

End RenderList.

(** [id + ": " + item]. *)
Definition entryText (e : BindingId * Value) (item : string) : string :=
  idText e.1 +:+ ": " +:+ item.

Section Render.

Variable toString : Value -> string.
Variable br : option BlockRecursionProps.

Fixpoint renderValue (v : Value) (level : N) {struct v} : Result string :=
  match v with
  | AnyValue _ | DataValue _ | LiteralValue _ | ErrorValue _
  | BuiltinValue _ => Ok (toString v)
  | MaybeErrorValue _ inner =>
      match renderValue inner level with
      | Ok s => Ok ("(" +:+ s +:+ " | Error)")
      | Throw msg => Throw msg
      end
  | BranchedValue _ prefix cond cases =>
      match renderList (fun x => renderValue x level) (cond :: cases) with
      | Ok strs =>
          Ok (prefix +:+ "(" +:+ item0 strs +:+ ", " +:+ join ", " (drop 1 strs)
              +:+ ")")
      | Throw msg => Throw msg
      end
  | FuncValue _ t stack =>
      if cutoffHit br t level then Ok ("Fn" +:+ pretty t)
      else
        match renderList (fun e => renderValue e.2 (newDepth br t level))
                stack with
        | Ok strs =>
            Ok ("Fn" +:+ pretty t +:+ "[" +:+
                join ", " (zip_with entryText stack strs) +:+ "]")
        | Throw msg => Throw msg
        end
  | ForeignValue _ => Throw "unhandled value type"
  end.

End Render.

(** ** The states of one traversal *)

(** The successive values of [state] at the top of the loop. *)
Fixpoint trace (toString : Value -> string) (fuel : nat)
    (br : option BlockRecursionProps) (state : State) (frames : list Frame)
    (cache : option Cache) : list State :=
  match fuel with
  | O => []
  | S fuel' =>
      state ::
      match loopBody toString br state frames cache with
      | Continue state' frames' cache' =>
          trace toString fuel' br state' frames' cache'
      | _ => []
      end
  end.

(** ** What a call may write into the cache *)

(** The entry [i ↦ s] is the output of the combinator of a composite node
    among [nodes], applied to one string per child of that node. *)
Definition writtenBy (nodes : list Value) (i : Ident) (s : string) : Prop :=
  exists w f items,
    w ∈ nodes /\ ident w = i /\ combinatorOf w = Some f
    /\ length items = length (children w) /\ f items = Ok s.

(** From [c] to [c'] every key is either left as it was or holds such an
    output. *)
Definition onlyWrites (nodes : list Value) (c c' : option Cache) : Prop :=
  match c, c' with
  | Some m, Some m' =>
      forall i,
        m' !! i = m !! i
        \/ exists s, m' !! i = Some s /\ writtenBy nodes i s
  | None, None => True
  | _, _ => False
  end.

(** ** The bindings of an environment, one call after the other *)

(** The values of the bindings are stringified one after the other by
    [stringifyValue], with the same cutoff; the cache object is the same
    for all, so each call starts from the cache as the previous one left
    it. *)
Inductive bindingsStringified (toString : Value -> string) (fuel : nat)
    (br : option BlockRecursionProps)
  : option Cache -> list (BindingId * Value) -> list string -> option Cache
    -> Prop :=
| bindings_nil cache : bindingsStringified toString fuel br cache [] [] cache
| bindings_cons cache id v rest s cache1 strs cache2 :
    stringifyValue toString fuel v br cache = Some (Ok s, cache1) ->
    bindingsStringified toString fuel br cache1 rest strs cache2 ->
    bindingsStringified toString fuel br cache ((id, v) :: rest) (s :: strs)
      cache2.

(** ** Statements used in the proofs *)

(** Started in [state] over [frames], the loop either comes back to the frame
    stack [target] reducing the string of [r], or throws what [r] throws. *)
Definition reaches (toString : Value -> string)
    (br : option BlockRecursionProps) (state : State) (frames : list Frame)
    (cache : option Cache) (target : list Frame)
    (r : Result string * option Cache) : Prop :=
  match r with
  | (Ok s, cache') =>
      exists n, forall fuel,
        loop toString (n + fuel) br state frames cache
        = loop toString fuel br (reduce s) target cache'
  | (Throw msg, cache') =>
      exists n, forall fuel,
        loop toString (n + fuel) br state frames cache
        = Some (Throw msg, cache')
  end.

(** The machine traverses [v] as [evalValue] says. *)
Definition simulated (toString : Value -> string)
    (br : option BlockRecursionProps) (v : Value) : Prop :=
  forall d cache frames,
    reaches toString br (compute {| value := v; depth := d |}) frames cache
      frames (evalValue toString br v d cache).

(** The item recorded in a frame for the child [proj e] at depth [d]. *)
Definition itemAt {A : Type} (proj : A -> Value) (d : N) (e : A)
  : ComputeItem :=
  {| value := proj e; depth := d |}.

(** [evalValue] returns the canonical form of [v] and keeps the cache
    [good], on the visits that are [relevant]. *)
Definition rendered (toString : Value -> string)
    (br : option BlockRecursionProps) (relevant : Value -> N -> Prop)
    (good : option Cache -> Prop) (v : Value) : Prop :=
  forall d c, relevant v d -> good c ->
    exists c', evalValue toString br v d c
               = (renderValue toString br v d, c') /\ good c'.

(** No item is computed or recorded beyond depth [k]. *)
Definition stateBounded (k : N) (state : State) : Prop :=
  match state with
  | compute c => (depth c <= k)%N
  | reduce _ => True
  end.

Definition framesBounded (k : N) (frames : list Frame) : Prop :=
  Forall (fun fr => Forall (fun c => (depth c <= k)%N) (values fr)) frames.

(** The visits that concern cache transparency: nodes of [root], at depths
    from which the cutoff is never hit. *)
Definition inGraph (br : option BlockRecursionProps) (root w : Value) (d : N)
  : Prop :=
  w ∈ subvalues root /\ cutoffNeverHit br w d = true.

(** A supplied cache all of whose strings are canonical forms. *)
Definition canonicalCache (toString : Value -> string)
    (br : option BlockRecursionProps) (root : Value) (cache : option Cache)
  : Prop :=
  exists m, cache = Some m /\
    forall w d s, inGraph br root w d -> truthy (m !! ident w) = Some s ->
      renderValue toString br w d = Ok s.

(** A supplied cache whose strings are the canonical forms of the objects
    at the depths at which the traversal of [root] meets them. *)
Definition levelCache (toString : Value -> string)
    (br : option BlockRecursionProps) (root : Value) (cache : option Cache)
  : Prop :=
  exists m, cache = Some m /\
    forall w d s, (w, d) ∈ visits br root 0 ->
      truthy (m !! ident w) = Some s ->
      renderValue toString br w d = Ok s.

(** A throw of [evalValue] is the fault raised on a foreign object. *)
Definition throwsForeign (toString : Value -> string)
    (br : option BlockRecursionProps) (v : Value) : Prop :=
  forall d c msg c',
    evalValue toString br v d c = (Throw msg, c') ->
    msg = "unhandled value type" /\ containsForeign v = true.

(** [evalValue] on [v] only writes entries of the nodes of [v]. *)
Definition writesOwn (toString : Value -> string)
    (br : option BlockRecursionProps) (v : Value) : Prop :=
  forall d c,
    onlyWrites (subvalues v) c (evalValue toString br v d c).2.

(** What [stackItems] computes, by the recursive account. *)
Definition stackItemsResult (toString : Value -> string)
    (br : option BlockRecursionProps) (entries : list (BindingId * Value))
    (cache : option Cache) : Result (list string) * option Cache :=
  match evalList (fun e => evalValue toString br e.2 0) entries cache with
  | (Ok strs, cache') => (Ok (zip_with entryText entries strs), cache')
  | (Throw msg, cache') => (Throw msg, cache')
  end.

(** ** Sample objects

    A [toString] for examples: [AnyValue] prints as "Any", [ErrorValue] as
    "Error", and a literal, a data value or a builtin prints the number that
    identifies it. *)
Definition sampleToString (v : Value) : string :=
  match v with
  | AnyValue _ => "Any"
  | DataValue i => "Data" +:+ pretty (Npos i)
  | LiteralValue i => pretty (Npos i)
  | ErrorValue _ => "Error"
  | BuiltinValue i => "Builtin" +:+ pretty (Npos i)
  | _ => "[object Object]"
  end.

(** A closure whose two bindings alias the same object. *)
Definition sharedInner : Value := MaybeErrorValue 3 (LiteralValue 4).

Definition sharedValue : Value :=
  FuncValue 1 7 [(StrId "x", sharedInner); (StrId "y", sharedInner)].

(** A closure of definition 9 that two closures of the same definition
    capture: the root, which meets it at depth 1, and a sibling binding of
    the root, which meets it at depth 2. *)
Definition twiceMet : Value := FuncValue 21 9 [(StrId "y", LiteralValue 1)].

Definition metAtTwoLevels : Value :=
  FuncValue 23 9
    [(StrId "a", twiceMet);
     (StrId "b", FuncValue 24 9 [(StrId "c", twiceMet)])].

(** Two bindings that alias one closure, itself capturing [twiceMet]: every
    object is met at one depth only. *)
Definition metAtOneLevel : Value :=
  FuncValue 31 9
    [(StrId "a", FuncValue 32 9 [(StrId "c", twiceMet)]);
     (StrId "b", FuncValue 32 9 [(StrId "c", twiceMet)])].

(** ** Counting the iterations of the loop *)

Section CostList.

Context {A : Type}.
Variable visit : A -> option Cache -> Result string * option Cache.
Variable cost : A -> option Cache -> nat.

(** Iterations spent on the children [l] of a frame: those of each child,
    and one more for the [reduce] branch that takes its string; nothing
    follows a child that throws. *)
Fixpoint costList (l : list A) (cache : option Cache) : nat :=
  match l with
  | [] => 0
  | x :: rest =>
      cost x cache +
      match visit x cache with
      | (Ok _, cache1) => 1 + costList rest cache1
      | (Throw _, _) => 0
      end
  end.

End CostList.

Section Cost.

Variable toString : Value -> string.
Variable br : option BlockRecursionProps.

(** Iterations from [compute v] to the [reduce] of the string of [v], or to
    the throw. *)
Fixpoint evalCost (v : Value) (d : N) (cache : option Cache) {struct v}
  : nat :=
  match truthy (cacheGet cache v) with
  | Some _ => 1
  | None =>
      match v with
      | MaybeErrorValue _ inner =>
          1 + costList (fun x => evalValue toString br x d)
                (fun x => evalCost x d) [inner] cache
      | BranchedValue _ _ cond cases =>
          1 + costList (fun x => evalValue toString br x d)
                (fun x => evalCost x d) (cond :: cases) cache
      | FuncValue _ t stack =>
          if cutoffHit br t d then 1
          else
            match stack with
            | [] => 1
            | _ :: _ =>
                1 + costList
                      (fun e => evalValue toString br e.2 (newDepth br t d))
                      (fun e => evalCost e.2 (newDepth br t d)) stack cache
            end
      | _ => 1
      end
  end.

End Cost.

(** [reaches], in exactly [n] iterations. *)
Definition reachesIn (toString : Value -> string)
    (br : option BlockRecursionProps) (n : nat) (state : State)
    (frames : list Frame) (cache : option Cache) (target : list Frame)
    (r : Result string * option Cache) : Prop :=
  forall fuel,
    loop toString (n + fuel) br state frames cache
    = match r with
      | (Ok s, cache') => loop toString fuel br (reduce s) target cache'
      | (Throw msg, cache') => Some (Throw msg, cache')
      end.

Definition simulatedIn (toString : Value -> string)
    (br : option BlockRecursionProps) (v : Value) : Prop :=
  forall d cache frames,
    reachesIn toString br (evalCost toString br v d cache)
      (compute {| value := v; depth := d |}) frames cache frames
      (evalValue toString br v d cache).

(** ** The frames of one traversal *)

Section PushedList.

Context {A : Type}.
Variable visit : A -> option Cache -> Result string * option Cache.
Variable pushed : A -> option Cache -> list Value.

Fixpoint pushedList (l : list A) (cache : option Cache) : list Value :=
  match l with
  | [] => []
  | x :: rest =>
      (pushed x cache ++
       match visit x cache with
       | (Ok _, cache1) => pushedList rest cache1
       | (Throw _, _) => []
       end)%list
  end.

End PushedList.

Section Pushed.

Variable toString : Value -> string.
Variable br : option BlockRecursionProps.

(** The owners of the frames pushed while [v] is traversed. *)
Fixpoint evalPushed (v : Value) (d : N) (cache : option Cache) {struct v}
  : list Value :=
  match truthy (cacheGet cache v) with
  | Some _ => []
  | None =>
      match v with
      | MaybeErrorValue _ inner =>
          v :: pushedList (fun x => evalValue toString br x d)
                 (fun x => evalPushed x d) [inner] cache
      | BranchedValue _ _ cond cases =>
          v :: pushedList (fun x => evalValue toString br x d)
                 (fun x => evalPushed x d) (cond :: cases) cache
      | FuncValue _ t stack =>
          if cutoffHit br t d then []
          else
            match stack with
            | [] => []
            | _ :: _ =>
                v :: pushedList
                       (fun e => evalValue toString br e.2 (newDepth br t d))
                       (fun e => evalPushed e.2 (newDepth br t d)) stack cache
            end
      | _ => []
      end
  end.

End Pushed.

(** Number of children of a value. *)
Definition arity (v : Value) : nat := length (children v).

(** Of the nodes of [l] that carry the same identity only one is kept. *)
Definition onePerIdentity (l : list Value) : list Value :=
  foldr (fun w acc =>
           if decide (ident w ∈ (ident <$> acc)) then acc else w :: acc)
    [] l.

(** One node per object of the graph. *)
Definition instances (v : Value) : list Value :=
  onePerIdentity (subvalues v).

(** The children of the distinct objects of the graph, counted once per
    object. *)
Definition sharedWork (v : Value) : nat :=
  sum_list_with arity (instances v).

(** The cache holds a non-empty string under the identity [i]. *)
Definition cachedAt (m : Cache) (i : Ident) : Prop :=
  is_Some (truthy (m !! i)).

(** From [m] to [m'] nothing that was a hit is lost, and the nodes of [l],
    all [inside] and of distinct identities, have gone from a miss to a
    hit. *)
Definition freshlyPushed (m m' : Cache) (l : list Value)
    (inside : Value -> Prop) : Prop :=
  (forall i, cachedAt m i -> cachedAt m' i)
  /\ (forall w, w ∈ l ->
        inside w /\ ~ cachedAt m (ident w) /\ cachedAt m' (ident w))
  /\ NoDup (ident <$> l).

(** A traversal of [v], a node of [root], that returns a string pushes
    frames only for nodes of [v] that were misses and are hits afterwards,
    and no two of them for the same identity. *)
Definition sharesOnce (toString : Value -> string)
    (br : option BlockRecursionProps) (root v : Value) : Prop :=
  forall d m s c',
    v ∈ subvalues root ->
    evalValue toString br v d (Some m) = (Ok s, c') ->
    exists m',
      c' = Some m'
      /\ freshlyPushed m m' (evalPushed toString br v d (Some m))
           (fun w => w ∈ subvalues v).

(** A diamond of [n] levels: each level is a branch whose condition and
    whose only case are the same object, the level below. *)
Fixpoint diamond (n : nat) : Value :=
  match n with
  | O => AnyValue 1
  | S n' =>
      BranchedValue (Pos.of_succ_nat n) "If" (diamond n') [diamond n']
  end.

(** ** The height of the frame stack *)

(** The largest number of frames on the stack at the top of the loop during
    the first [fuel] iterations. *)
Fixpoint peakFrames (toString : Value -> string) (fuel : nat)
    (br : option BlockRecursionProps) (state : State) (frames : list Frame)
    (cache : option Cache) : nat :=
  match fuel with
  | O => length frames
  | S fuel' =>
      Nat.max (length frames)
        match loopBody toString br state frames cache with
        | Continue state' frames' cache' =>
            peakFrames toString fuel' br state' frames' cache'
        | _ => 0
        end
  end.

(** The largest number of values that have children nested in one another
    along a path of the graph. *)
Fixpoint nestingDepth (v : Value) : nat :=
  match v with
  | MaybeErrorValue _ inner => S (nestingDepth inner)
  | BranchedValue _ _ cond cases =>
      S (Nat.max (nestingDepth cond)
           (foldr Nat.max 0 (map nestingDepth cases)))
  | FuncValue _ _ stack =>
      match stack with
      | [] => 0
      | _ :: _ => S (foldr Nat.max 0 (map (fun e => nestingDepth e.2) stack))
      end
  | _ => 0
  end.

(** While [v] is traversed over [frames] the stack holds at most
    [nestingDepth v] more frames; afterwards the loop goes on from the
    [reduce] of the string of [v] over [frames]. *)
Definition framesBelow (toString : Value -> string)
    (br : option BlockRecursionProps) (v : Value) : Prop :=
  forall d cache frames fuel,
    peakFrames toString fuel br (compute {| value := v; depth := d |})
      frames cache
    <= Nat.max (length frames + nestingDepth v)
         match evalValue toString br v d cache with
         | (Ok s, cache') =>
             peakFrames toString (fuel - evalCost toString br v d cache) br
               (reduce s) frames cache'
         | (Throw _, _) => 0
         end.

(** * Theorems *)

(** ** The machine computes what the recursive descent computes *)

Section Simulation.

Variable toString : Value -> string.
Variable br : option BlockRecursionProps.

Lemma reaches_step state frames cache state' frames' cache' target r :
  loopBody toString br state frames cache = Continue state' frames' cache' ->
  reaches toString br state' frames' cache' target r ->
  reaches toString br state frames cache target r.
Proof.
  intros Hstep Hr. destruct r as [[s|msg] c]; simpl in *.
  - destruct Hr as [n Hn]. exists (S n). intros fuel. simpl.
    rewrite Hstep. apply Hn.
  - destruct Hr as [n Hn]. exists (S n). intros fuel. simpl.
    rewrite Hstep. apply Hn.
Qed.

Lemma reaches_raise state frames cache target msg :
  loopBody toString br state frames cache = Raise msg cache ->
  reaches toString br state frames cache target (Throw msg, cache).
Proof.
  intros Hstep. exists 1. intros fuel. simpl. by rewrite Hstep.
Qed.

Lemma reaches_refl s frames cache :
  reaches toString br (reduce s) frames cache frames (Ok s, cache).
Proof. exists 0. reflexivity. Qed.

(** Sequencing: first reach [reduce s] over [mid], then go on from there. *)
Lemma reaches_then state frames cache mid s cache1 target r :
  reaches toString br state frames cache mid (Ok s, cache1) ->
  reaches toString br (reduce s) mid cache1 target r ->
  reaches toString br state frames cache target r.
Proof.
  intros [n1 H1] Hr. destruct r as [[s2|msg] c]; simpl in *.
  - destruct Hr as [n2 H2]. exists (n1 + n2). intros fuel.
    rewrite <- Nat.add_assoc, H1. apply H2.
  - destruct Hr as [n2 H2]. exists (n1 + n2). intros fuel.
    rewrite <- Nat.add_assoc, H1. apply H2.
Qed.

Section Children.

Context {A : Type}.
Variable proj : A -> Value.
Variable d : N.
Variable o : Value.
Variable f : list string -> Result string.
Variable frames : list Frame.

Local Abbreviation mk := (itemAt proj d).

(** A frame whose next child is [x], with [rest] still to come, is unwound
    exactly as [evalList] followed by the combinator says. *)
Lemma engine_children (rest : list A) :
  Forall (fun e => simulated toString br (proj e)) rest ->
  forall x, simulated toString br (proj x) ->
  forall strs pre cache,
    length pre = length strs ->
    reaches toString br (compute (mk x))
      ({| owner := o; values := (pre ++ map mk (x :: rest))%list;
          stringifiedValues := strs; fn := f |} :: frames)
      cache frames
      (combine o (fun l => f (strs ++ l)%list)
         (evalList (fun e => evalValue toString br (proj e) d) (x :: rest)
            cache)).
Proof.
  induction rest as [|y rest IH]; intros Hrest x Hx strs pre cache Hlen.
  - simpl. specialize (Hx d cache
      ({| owner := o; values := (pre ++ [mk x])%list;
          stringifiedValues := strs; fn := f |} :: frames)).
    unfold itemAt at 1.
    destruct (evalValue toString br (proj x) d cache) as [[s|msg] c1] eqn:Hev.
    + simpl.
      assert (Hbody : loopBody toString br (reduce s)
         ({| owner := o; values := (pre ++ [mk x])%list;
             stringifiedValues := strs; fn := f |} :: frames) c1
         = match f (strs ++ [s])%list with
           | Ok s' => Continue (reduce s') frames (cacheSet c1 o s')
           | Throw msg => Raise msg c1
           end).
      { simpl. rewrite bool_decide_eq_true_2; [done|].
        rewrite !length_app. simpl. lia. }
      destruct (f (strs ++ [s])%list) as [s'|msg] eqn:Hf.
      * eapply reaches_then; [exact Hx|].
        eapply reaches_step; [exact Hbody|]. apply reaches_refl.
      * eapply reaches_then; [exact Hx|].
        apply reaches_raise. exact Hbody.
    + exact Hx.
  - inversion Hrest as [|? ? Hy Hrest']; subst.
    pose (fr := {| owner := o; values := (pre ++ map mk (x :: y :: rest))%list;
                   stringifiedValues := strs; fn := f |}).
    specialize (Hx d cache (fr :: frames)).
    change (evalList (fun e => evalValue toString br (proj e) d)
              (x :: y :: rest) cache)
      with (match evalValue toString br (proj x) d cache with
            | (Ok s, cache1) =>
                match evalList (fun e => evalValue toString br (proj e) d)
                        (y :: rest) cache1 with
                | (Ok l, cache2) => (Ok (s :: l), cache2)
                | (Throw msg, cache2) => (Throw msg, cache2)
                end
            | (Throw msg, cache1) => (Throw msg, cache1)
            end).
    unfold itemAt at 1. fold fr.
    destruct (evalValue toString br (proj x) d cache) as [[s|msg] c1] eqn:Hev.
    + specialize (IH Hrest' y Hy (strs ++ [s])%list (pre ++ [mk x])%list c1).
      assert (Hlen' : length (pre ++ [mk x])%list = length (strs ++ [s])%list)
        by (rewrite !length_app; simpl; lia).
      specialize (IH Hlen').
      rewrite <- app_assoc in IH.
      assert (Hbody : loopBody toString br (reduce s) (fr :: frames) c1
         = Continue (compute (mk y))
             ({| owner := o; values := (pre ++ map mk (x :: y :: rest))%list;
                 stringifiedValues := (strs ++ [s])%list; fn := f |}
              :: frames) c1).
      { simpl. rewrite bool_decide_eq_false_2.
        2:{ rewrite !length_app. simpl. rewrite length_map. lia. }
        rewrite lookup_app_r; rewrite !length_app; simpl; [|lia].
        replace (length strs + 1 - length pre) with 1 by lia.
        reflexivity. }
      eapply reaches_then; [exact Hx|].
      eapply reaches_step; [exact Hbody|].
      revert IH.
      destruct (evalList (fun e => evalValue toString br (proj e) d)
                  (y :: rest) c1) as [[l|msg] c2] eqn:Hl; simpl; intros IH.
      * rewrite <- app_assoc in IH. exact IH.
      * exact IH.
    + exact Hx.
Qed.

End Children.

End Simulation.

Section Soundness.

Variable toString : Value -> string.
Variable br : option BlockRecursionProps.

(** Every value is traversed by the machine as [evalValue] says. *)
Lemma engine_simulated (v : Value) : simulated toString br v.
Proof.
  induction v as [i|i|i|i|i|i v IHv|i pfx v cases IHv H|i t stack H|i]
    using Value_nested_ind; intros d cache frames;
    unfold evalValue; fold (evalValue toString br).
  1-5: destruct (truthy (cacheGet cache _)) as [cached|] eqn:Hc;
    (eapply reaches_step; [simpl; rewrite Hc; reflexivity|apply reaches_refl]).
  - (* MaybeErrorValue *)
    destruct (truthy (cacheGet cache (MaybeErrorValue i v))) as [cached|] eqn:Hc.
    { eapply reaches_step; [simpl; rewrite Hc; reflexivity|apply reaches_refl]. }
    eapply reaches_step; [simpl; rewrite Hc; reflexivity|].
    exact (engine_children toString br (fun x => x) d (MaybeErrorValue i v)
             fnMaybeError frames [] (List.Forall_nil _) v IHv [] [] cache eq_refl).
  - (* BranchedValue *)
    destruct (truthy (cacheGet cache (BranchedValue i pfx v cases)))
      as [cached|] eqn:Hc.
    { eapply reaches_step; [simpl; rewrite Hc; reflexivity|apply reaches_refl]. }
    eapply reaches_step; [simpl; rewrite Hc; reflexivity|].
    exact (engine_children toString br (fun x => x) d
             (BranchedValue i pfx v cases) (fnBranched pfx) frames
             cases H v IHv [] [] cache eq_refl).
  - (* FuncValue *)
    destruct (truthy (cacheGet cache (FuncValue i t stack))) as [cached|] eqn:Hc.
    { eapply reaches_step; [simpl; rewrite Hc; reflexivity|apply reaches_refl]. }
    destruct (cutoffHit br t d) eqn:Hcut.
    { eapply reaches_step; [simpl; rewrite Hc, Hcut; reflexivity|].
      apply reaches_refl. }
    destruct stack as [|[id0 v0] rest].
    { eapply reaches_step; [simpl; rewrite Hc, Hcut; reflexivity|].
      apply reaches_refl. }
    eapply reaches_step; [simpl; rewrite Hc, Hcut; reflexivity|].
    inversion H as [|? ? H0 Hrest]; subst.
    exact (engine_children toString br (fun e : BindingId * Value => e.2)
             (newDepth br t d) (FuncValue i t ((id0, v0) :: rest))
             (fnFunc t ((id0, v0) :: rest)) frames rest Hrest (id0, v0) H0
             [] [] cache eq_refl).
  - (* ForeignValue *)
    destruct (truthy (cacheGet cache (ForeignValue i))) as [cached|] eqn:Hc.
    { eapply reaches_step; [simpl; rewrite Hc; reflexivity|apply reaches_refl]. }
    apply reaches_raise. simpl. by rewrite Hc.
Qed.

(** With enough fuel, [stringifyValue] returns what [evalValue] computes at
    depth 0, and leaves the cache as [evalValue] leaves it. *)
Lemma stringifyValue_evalValue (v : Value) (cache : option Cache) :
  exists n, forall fuel,
    stringifyValue toString (n + fuel) v br cache
    = Some (evalValue toString br v 0 cache).
Proof.
  pose proof (engine_simulated v 0%N cache []) as H.
  unfold stringifyValue.
  destruct (evalValue toString br v 0 cache) as [[s|msg] c]; simpl in H.
  - destruct H as [n Hn]. exists (n + 1). intros fuel.
    rewrite <- Nat.add_assoc, Hn. reflexivity.
  - exact H.
Qed.

(** More fuel never changes an answer. *)
Lemma loop_mono (fuel : nat) :
  forall state frames cache r,
    loop toString fuel br state frames cache = Some r ->
    forall extra,
      loop toString (fuel + extra) br state frames cache = Some r.
Proof.
  induction fuel as [|fuel IH]; intros state frames cache r H extra;
    [discriminate|].
  simpl in *.
  destruct (loopBody toString br state frames cache); eauto.
Qed.

(** Whatever amount of fuel suffices, the answer is [evalValue]'s. *)
Lemma stringifyValue_unique (v : Value) (cache : option Cache) fuel r :
  stringifyValue toString fuel v br cache = Some r ->
  r = evalValue toString br v 0 cache.
Proof.
  intros H. destruct (stringifyValue_evalValue v cache) as [n Hn].
  unfold stringifyValue in *.
  pose proof (loop_mono _ _ _ _ _ H n) as H1.
  specialize (Hn fuel). rewrite Nat.add_comm in Hn. congruence.
Qed.

End Soundness.

(** ** Nodes of a value graph *)

Lemma subvalues_self v : v ∈ subvalues v.
Proof. destruct v; simpl; apply list_elem_of_here. Qed.

Lemma subvalues_trans v :
  forall w u, w ∈ subvalues v -> u ∈ subvalues w -> u ∈ subvalues v.
Proof.
  induction v as [i|i|i|i|i|i v IHv|i pfx v cases IHv H|i t stack H|i]
    using Value_nested_ind; intros w u Hw Hu; simpl in Hw;
    apply elem_of_cons in Hw as [->|Hw]; try exact Hu;
    try (by apply elem_of_nil in Hw).
  - simpl. apply list_elem_of_further. eauto.
  - simpl. apply list_elem_of_further.
    apply elem_of_app in Hw as [Hw|Hw].
    + apply elem_of_app. left. eauto.
    + apply elem_of_app. right.
      apply list_elem_of_bind in Hw as (x & Hx & Hin).
      apply list_elem_of_bind. exists x. split; [|done].
      rewrite Forall_forall in H. eauto.
  - simpl. apply list_elem_of_further.
    apply list_elem_of_bind in Hw as (x & Hx & Hin).
    apply list_elem_of_bind. exists x. split; [|done].
    rewrite Forall_forall in H. eauto.
Qed.

Lemma subvalues_child v c : c ∈ children v -> c ∈ subvalues v.
Proof.
  destruct v; simpl; intros Hc; try (by apply elem_of_nil in Hc);
    apply list_elem_of_further.
  - apply list_elem_of_singleton in Hc as ->. apply subvalues_self.
  - apply elem_of_cons in Hc as [->|Hc].
    + apply elem_of_app. left. apply subvalues_self.
    + apply elem_of_app. right. apply list_elem_of_bind.
      exists c. split; [apply subvalues_self|done].
  - apply list_elem_of_In, in_map_iff in Hc as (e & <- & He).
    apply list_elem_of_bind. exists e.
    split; [apply subvalues_self|by apply list_elem_of_In].
Qed.

Lemma subvalues_inside root v c :
  v ∈ subvalues root -> c ∈ children v -> c ∈ subvalues root.
Proof.
  intros Hv Hc. eapply subvalues_trans; [exact Hv|].
  by apply subvalues_child.
Qed.

(** ** One string per child *)

Lemma renderList_length {A} (render : A -> Result string) (l : list A) strs :
  renderList render l = Ok strs -> length strs = length l.
Proof.
  revert strs. induction l as [|x l IH]; intros strs H; simpl in H.
  - by inversion H.
  - destruct (render x); [|discriminate].
    destruct (renderList render l) eqn:Hl; [|discriminate].
    inversion H; subst. simpl. f_equal. by apply IH.
Qed.

(** With one string per binding, [stackEntries] pairs them up in order. *)
Lemma stackEntries_zip (pre stack : list (BindingId * Value)) items :
  length items = length stack ->
  stackEntries (pre ++ stack) (length pre) items
  = Some (zip_with entryText stack items).
Proof.
  revert pre items. induction stack as [|[id v] stack IH];
    intros pre [|item items] Hlen; simpl in Hlen; try discriminate.
  - reflexivity.
  - simpl. rewrite lookup_app_r by lia. rewrite Nat.sub_diag. simpl.
    specialize (IH (pre ++ [(id, v)])%list items).
    rewrite <- app_assoc, length_app in IH. simpl in IH.
    rewrite Nat.add_1_r in IH. rewrite IH by lia. reflexivity.
Qed.

Lemma fnFunc_zip t stack items :
  length items = length stack ->
  fnFunc t stack items
  = Ok ("Fn" +:+ pretty t +:+ "[" +:+ join ", " (zip_with entryText stack items)
        +:+ "]").
Proof.
  intros Hlen. unfold fnFunc.
  pose proof (stackEntries_zip [] stack items Hlen) as H. simpl in H.
  by rewrite H.
Qed.

(** ** Caches that only hold canonical forms

    [evalValue] returns [renderValue] whenever the cache it is given is
    [good]: a hit yields the canonical form of the value it is looked up for,
    and recording a canonical form keeps the cache good.  [relevant] delimits
    the visits (value and depth) for which this is required. *)

Section CacheInvariant.

Variable toString : Value -> string.
Variable br : option BlockRecursionProps.
Variable relevant : Value -> N -> Prop.
Variable good : option Cache -> Prop.

Hypothesis relevant_child : forall v d c,
  relevant v d -> isCut br v d = false -> c ∈ children v ->
  relevant c (childDepth br v d).
Hypothesis good_hit : forall c v d s,
  relevant v d -> good c -> truthy (cacheGet c v) = Some s ->
  renderValue toString br v d = Ok s.
Hypothesis good_set : forall c v d s,
  relevant v d -> good c -> renderValue toString br v d = Ok s ->
  good (cacheSet c v s).

Lemma evalList_rendered {A} (proj : A -> Value) (d : N) (l : list A) :
  Forall (fun e => rendered toString br relevant good (proj e)) l ->
  (forall e, e ∈ l -> relevant (proj e) d) ->
  forall c, good c ->
    exists c',
      evalList (fun e => evalValue toString br (proj e) d) l c
      = (renderList (fun e => renderValue toString br (proj e) d) l, c')
      /\ good c'.
Proof.
  induction l as [|x l IH]; intros Hall Hrel c Hc; simpl.
  - eauto.
  - inversion Hall as [|? ? Hx Hl]; subst.
    destruct (Hx d c) as (c1 & -> & Hc1); [apply Hrel; left|done|].
    destruct (renderValue toString br (proj x) d) as [s|msg]; [|eauto].
    destruct (IH Hl) with (c := c1) as (c2 & -> & Hc2);
      [intros e He; apply Hrel; by right|done|].
    destruct (renderList _ l); eauto.
Qed.

Lemma evalValue_rendered (v : Value) : rendered toString br relevant good v.
Proof.
  induction v as [i|i|i|i|i|i v IHv|i pfx v cases IHv H|i t stack H|i]
    using Value_nested_ind; intros d c Hrel Hc;
    unfold evalValue; fold (evalValue toString br);
    (destruct (truthy (cacheGet c _)) as [cached|] eqn:Hhit;
     [exists c; split; [|done]; f_equal; symmetry; by eapply good_hit|]);
    try (by exists c).
  - (* MaybeErrorValue *)
    simpl.
    destruct (IHv d c) as (c1 & -> & Hc1);
      [apply (relevant_child _ _ _ Hrel eq_refl); simpl; left|done|].
    pose proof (fun s => good_set c1 _ _ s Hrel Hc1) as Hset.
    cbn [renderValue] in Hset.
    destruct (renderValue toString br v d) as [s|msg]; simpl; eauto.
  - (* BranchedValue *)
    destruct (evalList_rendered (fun x => x) d (v :: cases)) with (c := c)
      as (c1 & Hev & Hc1); [by constructor| |done|].
    { intros e He. apply (relevant_child _ _ _ Hrel eq_refl). exact He. }
    rewrite Hev.
    pose proof (fun s => good_set c1 _ _ s Hrel Hc1) as Hset.
    cbn [renderValue] in Hset |- *.
    destruct (renderList _ (v :: cases)) as [strs|msg]; simpl; eauto.
  - (* FuncValue *)
    cbn [renderValue].
    destruct (cutoffHit br t d) eqn:Hcut; [by exists c|].
    destruct stack as [|e stack]; [by exists c|].
    destruct (evalList_rendered (fun e : BindingId * Value => e.2)
                (newDepth br t d) (e :: stack)) with (c := c)
      as (c1 & Hev & Hc1); [done| |done|].
    { intros x Hx. apply (relevant_child (FuncValue i t (e :: stack)) d);
        [done|done|]. unfold children. apply list_elem_of_In, in_map_iff.
      exists x. split; [done|by apply list_elem_of_In]. }
    rewrite Hev.
    pose proof (fun s => good_set c1 _ _ s Hrel Hc1) as Hset.
    cbn [renderValue] in Hset. rewrite Hcut in Hset.
    destruct (renderList _ (e :: stack)) as [strs|msg] eqn:Hstrs;
      simpl; [|eauto].
    rewrite fnFunc_zip by (by apply renderList_length in Hstrs).
    eauto.
Qed.

End CacheInvariant.

(** ** Calls without a cache *)

Section NoCache.

Variable toString : Value -> string.
Variable br : option BlockRecursionProps.

Lemma evalValue_no_cache (v : Value) (d : N) :
  evalValue toString br v d None = (renderValue toString br v d, None).
Proof.
  destruct (evalValue_rendered toString br (fun _ _ => True)
              (fun c => c = None)) with (v := v) (d := d) (c := @None Cache)
    as (c' & Hev & ->); try done.
  - intros c w d' s _ -> Hhit. discriminate.
  - intros c w d' s _ -> _. reflexivity.
Qed.

Lemma stringifyValue_no_cache (v : Value) :
  exists n, forall fuel,
    stringifyValue toString (n + fuel) v br None
    = Some (renderValue toString br v 0, None).
Proof.
  destruct (stringifyValue_evalValue toString br v None) as [n Hn].
  exists n. intros fuel. by rewrite Hn, evalValue_no_cache.
Qed.

End NoCache.

(** ** No state beyond the blocked depth *)

Section DepthBound.

Variable toString : Value -> string.
Variable t k : N.

Local Abbreviation cutoff := (Some {| tag := t; maxDepth := k |}).

Lemma loopBody_bounded state frames cache state' frames' cache' :
  stateBounded k state -> framesBounded k frames ->
  loopBody toString cutoff state frames cache
  = Continue state' frames' cache' ->
  stateBounded k state' /\ framesBounded k frames'.
Proof.
  intros Hs Hf Hstep. destruct state as [[v d]|item]; simpl in Hs;
    unfold loopBody in Hstep; cbn [value depth] in Hstep.
  - destruct (truthy (cacheGet cache v)).
    { inversion Hstep; subst. split; [exact I|assumption]. }
    destruct v as [i|i|i|i|i|i inner|i pfx cond cases|i t' stack|i];
      try (inversion Hstep; subst; (split; [exact I|assumption])).
    + inversion Hstep; subst. split; [exact Hs|].
      constructor; [|exact Hf]. simpl. by repeat constructor.
    + inversion Hstep; subst. split; [exact Hs|].
      constructor; [|exact Hf]. simpl. constructor; [exact Hs|].
      apply Forall_forall. intros c Hc.
      apply list_elem_of_In, in_map_iff in Hc as (x & <- & _). exact Hs.
    + destruct (cutoffHit cutoff t' d) eqn:Hcut.
      { inversion Hstep; subst. split; [exact I|assumption]. }
      destruct stack as [|[id0 v0] rest].
      { inversion Hstep; subst. split; [exact I|assumption]. }
      assert (Hnd : (newDepth cutoff t' d <= k)%N).
      { unfold newDepth, tagBlocked, cutoffHit in *. simpl in *.
        destruct (bool_decide (t' = t)); simpl in *; [|lia].
        apply bool_decide_eq_false in Hcut. lia. }
      inversion Hstep; subst. split; [exact Hnd|].
      constructor; [|exact Hf]. simpl. constructor; [exact Hnd|].
      apply Forall_forall. intros c Hc.
      apply list_elem_of_In, in_map_iff in Hc as (x & <- & _). exact Hnd.
  - destruct frames as [|fr frames]; [discriminate|].
    inversion Hf as [|? ? Hfr Hrest]; subst.
    destruct (bool_decide _).
    + destruct (fn fr _); inversion Hstep; subst.
      split; [exact I|assumption].
    + destruct (values fr !! _) as [c|] eqn:Hnext; inversion Hstep; subst.
      split.
      * rewrite Forall_forall in Hfr. apply Hfr.
        by eapply list_elem_of_lookup_2.
      * constructor; [exact Hfr|exact Hrest].
Qed.

Lemma trace_bounded fuel :
  forall state frames cache,
    stateBounded k state -> framesBounded k frames ->
    Forall (stateBounded k)
      (trace toString fuel cutoff state frames cache).
Proof.
  induction fuel as [|fuel IH]; intros state frames cache Hs Hf; simpl;
    [constructor|].
  constructor; [exact Hs|].
  destruct (loopBody toString cutoff state frames cache)
    as [state' frames' cache'| |] eqn:Hstep; [|constructor..].
  destruct (loopBody_bounded _ _ _ _ _ _ Hs Hf Hstep). by apply IH.
Qed.

End DepthBound.

(** ** Objects met at one depth only *)

Lemma visits_self br v d : (v, d) ∈ visits br v d.
Proof. destruct v; simpl; apply list_elem_of_here. Qed.

Lemma visits_trans br v :
  forall d w d' u d'',
    (w, d') ∈ visits br v d -> (u, d'') ∈ visits br w d' ->
    (u, d'') ∈ visits br v d.
Proof.
  induction v as [i|i|i|i|i|i v IHv|i pfx v cases IHv H|i t stack H|i]
    using Value_nested_ind; intros d w d' u d'' Hw Hu; simpl in Hw;
    apply elem_of_cons in Hw as [[= -> ->]|Hw]; try exact Hu;
    try (by apply elem_of_nil in Hw).
  - simpl. apply list_elem_of_further. eauto.
  - simpl. apply list_elem_of_further.
    apply elem_of_app in Hw as [Hw|Hw].
    + apply elem_of_app. left. eauto.
    + apply elem_of_app. right.
      apply list_elem_of_bind in Hw as (x & Hx & Hin).
      apply list_elem_of_bind. exists x. split; [|done].
      rewrite Forall_forall in H. eauto.
  - simpl. apply list_elem_of_further.
    destruct (cutoffHit br t d); [by apply elem_of_nil in Hw|].
    apply list_elem_of_bind in Hw as (x & Hx & Hin).
    apply list_elem_of_bind. exists x. split; [|done].
    rewrite Forall_forall in H. eauto.
Qed.

Lemma visits_child br v d c :
  isCut br v d = false -> c ∈ children v ->
  (c, childDepth br v d) ∈ visits br v d.
Proof.
  destruct v; simpl; intros Hcut Hc; try (by apply elem_of_nil in Hc);
    apply list_elem_of_further.
  - apply list_elem_of_singleton in Hc as ->. apply visits_self.
  - apply elem_of_cons in Hc as [->|Hc].
    + apply elem_of_app. left. apply visits_self.
    + apply elem_of_app. right. apply list_elem_of_bind.
      exists c. split; [apply visits_self|done].
  - rewrite Hcut.
    apply list_elem_of_In, in_map_iff in Hc as (e & <- & He).
    apply list_elem_of_bind. exists e.
    split; [apply visits_self|by apply list_elem_of_In].
Qed.

Section Levelled.

Variable toString : Value -> string.
Variable br : option BlockRecursionProps.
Variable root : Value.
Hypothesis root_levelled : levelled br root.

Lemma evalValue_levelled (v : Value) (d : N) (cache : option Cache) :
  (v, d) ∈ visits br root 0 -> levelCache toString br root cache ->
  exists cache',
    evalValue toString br v d cache = (renderValue toString br v d, cache')
    /\ levelCache toString br root cache'.
Proof.
  apply (evalValue_rendered toString br
           (fun w d' => (w, d') ∈ visits br root 0)
           (levelCache toString br root)).
  - intros w d' c Hw Hcut Hc.
    eapply visits_trans; [exact Hw|]. by apply visits_child.
  - intros c w d' s Hw (m & -> & Hm) Hhit. by eapply Hm.
  - intros c w d' s Hw (m & -> & Hm) Hs.
    exists (<[ident w := s]> m). split; [done|].
    intros w' d'' s' Hw' Hhit.
    destruct (decide (ident w = ident w')) as [Heq|Hne].
    + destruct (root_levelled w d' w' d'' Hw Hw' Heq) as [<- <-].
      rewrite lookup_insert_eq in Hhit.
      destruct s as [|a s]; simpl in Hhit; [discriminate|].
      by injection Hhit as <-.
    + rewrite lookup_insert_ne in Hhit by done. by eapply Hm.
Qed.

Lemma stringifyValue_levelled :
  exists n m, forall fuel,
    stringifyValue toString (n + fuel) root br (Some ∅)
    = Some (renderValue toString br root 0, Some m).
Proof.
  destruct (evalValue_levelled root 0 (Some ∅)) as (c' & Hev & (m & -> & _)).
  { apply visits_self. }
  { exists ∅. split; [done|]. intros w d s _ Hhit.
    rewrite lookup_empty in Hhit. discriminate. }
  destruct (stringifyValue_evalValue toString br root (Some ∅)) as [n Hn].
  exists n, m. intros fuel. by rewrite Hn, Hev.
Qed.

End Levelled.

Lemma metAtOneLevel_levelled :
  levelled (Some {| tag := 9; maxDepth := 2 |}) metAtOneLevel.
Proof.
  intros w d w' d' Ha Hb Hid.
  assert (Hv : visits (Some {| tag := 9; maxDepth := 2 |}) metAtOneLevel 0
               = [(metAtOneLevel, 0%N);
                  (FuncValue 32 9 [(StrId "c", twiceMet)], 1%N);
                  (twiceMet, 2%N);
                  (FuncValue 32 9 [(StrId "c", twiceMet)], 1%N);
                  (twiceMet, 2%N)]) by (vm_compute; reflexivity).
  rewrite Hv in Ha, Hb. clear Hv.
  repeat (apply elem_of_cons in Ha as [[= -> ->]|Ha]);
    try (by apply elem_of_nil in Ha);
    repeat (apply elem_of_cons in Hb as [[= -> ->]|Hb]);
    try (by apply elem_of_nil in Hb); done.
Qed.

(** ** Termination under the recursion cutoff *)




(** C8: without a cache the result of [stringifyValue] is a function of the
    value graph and the cutoff alone: every call that is given enough fuel
    returns the same string (or throws the same error), namely
    [renderValue], and there is no cache to leave changed. *)
Theorem stringifyValue_deterministic (toString : Value -> string)
    (v : Value) (br : option BlockRecursionProps) :
  (exists n, forall fuel,
      stringifyValue toString (n + fuel) v br None
      = Some (renderValue toString br v 0, None))
  /\ (forall fuel1 fuel2 r1 r2,
        stringifyValue toString fuel1 v br None = Some r1 ->
        stringifyValue toString fuel2 v br None = Some r2 ->
        r1 = r2 /\ r1.2 = None).
Proof.
  split; [apply stringifyValue_no_cache|].
  intros fuel1 fuel2 r1 r2 H1 H2.
  apply stringifyValue_unique in H1, H2. subst.
  rewrite evalValue_no_cache. by split.
Qed.

(** The scenarios of the specification. *)
Example scenario_literal :
  stringifyValue sampleToString 2 (LiteralValue 3) None None
  = Some (Ok "3", None).
Proof. reflexivity. Qed.

Example scenario_maybe_error :
  stringifyValue sampleToString 4 (MaybeErrorValue 10 (LiteralValue 3))
    None None
  = Some (Ok "(3 | Error)", None).
Proof. reflexivity. Qed.

Example scenario_branched :
  stringifyValue sampleToString 8
    (BranchedValue 11 "If" (AnyValue 12) [LiteralValue 1; LiteralValue 2])
    None None
  = Some (Ok "If(Any, 1, 2)", None).
Proof. reflexivity. Qed.

Example scenario_closure :
  stringifyValue sampleToString 4
    (FuncValue 13 7 [(StrId "x", LiteralValue 1)]) None None
  = Some (Ok "Fn7[x: 1]", None).
Proof. reflexivity. Qed.

Example scenario_self_recursive :
  stringifyValue sampleToString 4
    (FuncValue 13 9 [(StrId "f", FuncValue 14 9 [(StrId "y", LiteralValue 1)])])
    (Some {| tag := 9; maxDepth := 1 |}) None
  = Some (Ok "Fn9[f: Fn9]", None).
Proof. reflexivity. Qed.

(** ** Direct formatting of a call *)

Lemma append_nil_r (s : string) : s +:+ "" = s.
Proof.
  induction s as [|a s IH]; [done|].
  change (String a (s +:+ "") = String a s). by rewrite IH.
Qed.

Lemma append_assoc (s1 s2 s3 : string) :
  (s1 +:+ s2) +:+ s3 = s1 +:+ s2 +:+ s3.
Proof.
  induction s1 as [|a s1 IH]; [done|].
  change (String a ((s1 +:+ s2) +:+ s3) = String a (s1 +:+ s2 +:+ s3)).
  by rewrite IH.
Qed.

Lemma join_cons sep (s : string) (l : list string) (tail : string) :
  join sep (s :: l) +:+ tail
  = s +:+ foldr (fun x acc => sep +:+ x +:+ acc) tail l.
Proof.
  revert s. induction l as [|y l IH]; intros s; [done|].
  change (join sep (s :: y :: l)) with (s +:+ sep +:+ join sep (y :: l)).
  by rewrite !append_assoc, IH.
Qed.

(** C6: [stringifyCall fn args] is the callee's own [toString], an opening
    parenthesis, the arguments' own [toString]s separated by ", ", and a
    closing parenthesis; nothing but [toString] enters the result, and the
    function takes neither a cutoff nor a cache. *)
Theorem stringifyCall_direct (toString : Value -> string) (fn : Value)
    (args : list Value) :
  stringifyCall toString fn args
  = toString fn +:+ "(" +:+ join ", " (map toString args) +:+ ")"
  /\ stringifyCall toString fn [] = toString fn +:+ "()"
  /\ (forall a rest,
        stringifyCall toString fn (a :: rest)
        = toString fn +:+ "(" +:+ toString a +:+
          foldr (fun x acc => ", " +:+ toString x +:+ acc) ")" rest).
Proof.
  split; [reflexivity|]. split; [reflexivity|].
  intros a rest. unfold stringifyCall. simpl map.
  rewrite join_cons. do 3 f_equal.
  induction rest as [|x rest IH]; simpl; [done|by rewrite IH].
Qed.

(** ** Closures with an empty environment *)

(** C3 fails as stated: under a cutoff that blocks tag 7 at depth 0, the
    closure [FuncValue(tag=7, stack=[])] is stringified to the placeholder
    "Fn7", not to "Fn7[]": the cutoff test comes before the test for an
    empty environment. *)
Lemma empty_closure_cut_off :
  stringifyValue sampleToString 2 (FuncValue 13 7 [])
    (Some {| tag := 7; maxDepth := 0 |}) None
  = Some (Ok "Fn7", None)
  /\ stringifyValue sampleToString 2 (FuncValue 13 7 [])
       (Some {| tag := 7; maxDepth := 0 |}) None
     <> Some (Ok "Fn7[]", None).
Proof. split; [reflexivity|discriminate]. Qed.

(** C3, amended: a closure with an empty environment for which the cache
    holds no (non-empty) string is rendered as "Fn" + tag + "[]" at every
    depth and under every cutoff that is not hit there, that is, unless the
    blocked tag is the closure's tag and [maxDepth] is the current depth; at
    the root of a call the current depth is 0.  When the cutoff is hit the
    closure is rendered as the placeholder "Fn" + tag. *)
Theorem empty_closure_rendering (toString : Value -> string) (i : Ident)
    (t : N) (br : option BlockRecursionProps) (cache : option Cache) :
  truthy (cacheGet cache (FuncValue i t [])) = None ->
  (forall d frames,
      cutoffHit br t d = false ->
      loopBody toString br
        (compute {| value := FuncValue i t []; depth := d |}) frames cache
      = Continue (reduce ("Fn" +:+ pretty t +:+ "[]")) frames cache)
  /\ (cutoffHit br t 0 = false ->
      forall fuel,
        stringifyValue toString (2 + fuel) (FuncValue i t []) br cache
        = Some (Ok ("Fn" +:+ pretty t +:+ "[]"), cache))
  /\ (forall d frames,
        cutoffHit br t d = true ->
        loopBody toString br
          (compute {| value := FuncValue i t []; depth := d |}) frames cache
        = Continue (reduce ("Fn" +:+ pretty t)) frames cache).
Proof.
  intros Hmiss.
  assert (Hstep : forall d frames,
    cutoffHit br t d = false ->
    loopBody toString br
      (compute {| value := FuncValue i t []; depth := d |}) frames cache
    = Continue (reduce ("Fn" +:+ pretty t +:+ "[]")) frames cache).
  { intros d frames Hcut. unfold loopBody. cbn [value depth].
    by rewrite Hmiss, Hcut. }
  split; [exact Hstep|]. split.
  - intros Hcut fuel. unfold stringifyValue.
    change (2 + fuel) with (S (S fuel)). cbn [loop].
    by rewrite (Hstep 0%N [] Hcut).
  - intros d frames Hcut. unfold loopBody. cbn [value depth].
    by rewrite Hmiss, Hcut.
Qed.

Lemma empty_closure_rendering_witness :
  stringifyValue sampleToString 2 (FuncValue 13 7 []) None None
  = Some (Ok "Fn7[]", None).
Proof.
  exact (proj1 (proj2 (empty_closure_rendering sampleToString 13 7 None None
                         eq_refl)) eq_refl 0).
Defined.

(** ** Cache hits *)

(** A non-empty cached string is returned at once: two iterations, no frame,
    the cache unchanged. *)
Lemma cached_string_returned (toString : Value -> string) (v : Value)
    (br : option BlockRecursionProps) (c : Cache) (s : string) :
  c !! ident v = Some s -> s <> "" ->
  forall fuel,
    stringifyValue toString (2 + fuel) v br (Some c) = Some (Ok s, Some c).
Proof.
  intros Hc Hs fuel. unfold stringifyValue.
  change (2 + fuel) with (S (S fuel)). cbn [loop]. unfold loopBody.
  cbn [value depth cacheGet]. rewrite Hc.
  destruct s as [|a s]; [done|]. reflexivity.
Qed.




(** ** Recorded depths *)

(** C7: when computing [v] at depth [d] pushes a frame, the frame records
    the children of [v] in order, each at depth [d], except that the
    children of a closure whose tag is the cutoff's blocked tag are recorded
    at depth [d + 1]; and when a frame is resumed, the next item is computed
    at the depth recorded for it, the frame's records being left as they
    are. *)
Theorem child_depth_recorded (toString : Value -> string)
    (br : option BlockRecursionProps) :
  (forall v d frames cache c frames' cache',
      loopBody toString br (compute {| value := v; depth := d |}) frames cache
      = Continue (compute c) frames' cache' ->
      exists fr,
        frames' = fr :: frames /\ owner fr = v
        /\ map value (values fr) = children v
        /\ values fr !! 0 = Some c
        /\ Forall (fun item =>
             match v with
             | FuncValue _ t _ =>
                 (forall b, br = Some b -> t = tag b ->
                            depth item = (d + 1)%N)
                 /\ (forall b, br = Some b -> t <> tag b -> depth item = d)
                 /\ (br = None -> depth item = d)
             | _ => depth item = d
             end) (values fr))
  /\ (forall item fr frames cache c frames' cache',
        loopBody toString br (reduce item) (fr :: frames) cache
        = Continue (compute c) frames' cache' ->
        values fr !! length (stringifiedValues fr ++ [item]) = Some c
        /\ exists fr',
             frames' = fr' :: frames /\ owner fr' = owner fr
             /\ values fr' = values fr).
Proof.
  split.
  - intros v d frames cache c frames' cache' Hstep.
    unfold loopBody in Hstep. cbn [value depth] in Hstep.
    destruct (truthy (cacheGet cache v)); [discriminate|].
    destruct v as [i|i|i|i|i|i inner|i pfx cond cases|i t stack|i];
      try discriminate.
    + inversion Hstep; subst. eexists. split; [reflexivity|].
      simpl. repeat split; by repeat constructor.
    + inversion Hstep; subst. eexists. split; [reflexivity|].
      simpl. repeat split.
      * f_equal. rewrite map_map. simpl. apply map_id.
      * constructor; [done|]. apply Forall_forall. intros x Hx.
        by apply list_elem_of_In, in_map_iff in Hx as (y & <- & _).
    + destruct (cutoffHit br t d); [discriminate|].
      destruct stack as [|[id0 v0] rest]; [discriminate|].
      inversion Hstep; subst. eexists. split; [reflexivity|].
      assert (Hnd :
        (forall b, br = Some b -> t = tag b -> newDepth br t d = (d + 1)%N)
        /\ (forall b, br = Some b -> t <> tag b -> newDepth br t d = d)
        /\ (br = None -> newDepth br t d = d)).
      { unfold newDepth, tagBlocked. repeat split.
        - intros b -> ->. by rewrite bool_decide_eq_true_2.
        - intros b -> Hne. by rewrite bool_decide_eq_false_2.
        - by intros ->. }
      simpl. repeat split.
      * f_equal. rewrite map_map. reflexivity.
      * constructor; [exact Hnd|]. apply Forall_forall. intros x Hx.
        apply list_elem_of_In, in_map_iff in Hx as (y & <- & _). exact Hnd.
  - intros item fr frames cache c frames' cache' Hstep.
    unfold loopBody in Hstep.
    destruct (bool_decide _); [destruct (fn fr _); discriminate|].
    destruct (values fr !! _) as [next|] eqn:Hnext; [|discriminate].
    inversion Hstep; subst. split; [reflexivity|].
    eexists. split; [reflexivity|]. by split.
Qed.

(** ** Cache transparency *)

Lemma cutoffNeverHit_none (v : Value) : forall d, cutoffNeverHit None v d = true.
Proof.
  induction v as [i|i|i|i|i|i v IHv|i pfx v cases IHv H|i t stack H|i]
    using Value_nested_ind; intros d; simpl; try done.
  - rewrite IHv. simpl. apply forallb_forall. intros x Hx.
    rewrite Forall_forall in H. by apply H, list_elem_of_In.
  - apply forallb_forall. intros x Hx.
    rewrite Forall_forall in H. by apply H, list_elem_of_In.
Qed.

Lemma cutoffNeverHit_child br v d c :
  cutoffNeverHit br v d = true -> c ∈ children v ->
  cutoffNeverHit br c (childDepth br v d) = true.
Proof.
  destruct v as [i|i|i|i|i|i inner|i pfx cond cases|i t stack|i]; simpl;
    intros Hv Hc; try (by apply elem_of_nil in Hc).
  - by apply list_elem_of_singleton in Hc as ->.
  - apply andb_true_iff in Hv as [Hcond Hcases].
    apply elem_of_cons in Hc as [->|Hc]; [done|].
    rewrite forallb_forall in Hcases. by apply Hcases, list_elem_of_In.
  - apply andb_true_iff in Hv as [_ Hstack].
    apply list_elem_of_In, in_map_iff in Hc as (e & <- & He).
    rewrite forallb_forall in Hstack. by apply Hstack.
Qed.

Lemma renderList_ext {A} (f g : A -> Result string) (l : list A) :
  Forall (fun x => f x = g x) l -> renderList f l = renderList g l.
Proof.
  induction 1 as [|x l Hx _ IH]; simpl; [done|]. by rewrite Hx, IH.
Qed.

(** When the cutoff is never hit the canonical form is the full expansion,
    whatever the depth. *)
Lemma renderValue_full toString br (v : Value) :
  forall d d', cutoffNeverHit br v d = true ->
    renderValue toString br v d = renderValue toString None v d'.
Proof.
  induction v as [i|i|i|i|i|i v IHv|i pfx v cases IHv H|i t stack H|i]
    using Value_nested_ind; intros d d' Hv; simpl in Hv; try done.
  - simpl. by rewrite (IHv d d').
  - apply andb_true_iff in Hv as [Hcond Hcases].
    cbn [renderValue].
    rewrite (renderList_ext (fun x => renderValue toString br x d)
               (fun x => renderValue toString None x d')); [done|].
    constructor; [by apply IHv|].
    rewrite forallb_forall in Hcases.
    rewrite Forall_forall in H |- *. intros x Hx.
    apply H; [done|]. by apply Hcases, list_elem_of_In.
  - apply andb_true_iff in Hv as [Hcut Hstack].
    apply negb_true_iff in Hcut. cbn [renderValue]. rewrite Hcut.
    change (cutoffHit None t d') with false. cbv iota.
    rewrite (renderList_ext
               (fun e => renderValue toString br e.2 (newDepth br t d))
               (fun e => renderValue toString None e.2 (newDepth None t d')));
      [done|].
    rewrite forallb_forall in Hstack.
    rewrite Forall_forall in H |- *. intros x Hx.
    apply H; [done|]. by apply Hstack, list_elem_of_In.
Qed.

Lemma foldr_max_le {A} (f : A -> N) (l : list A) (x : A) :
  In x l -> (f x <= foldr N.max 0 (map f l))%N.
Proof.
  induction l as [|y l IH]; simpl; [done|]. intros [->|Hx]; [lia|].
  specialize (IH Hx). lia.
Qed.

(** A [maxDepth] that the nesting of the blocked definition does not exceed
    is never reached by a closure of that definition. *)
Lemma cutoffNeverHit_large_maxDepth (t k : N) (v : Value) :
  forall d, (d + closureNesting t v <= k)%N ->
    cutoffNeverHit (Some {| tag := t; maxDepth := k |}) v d = true.
Proof.
  induction v as [i|i|i|i|i|i v IHv|i pfx v cases IHv H|i t' stack H|i]
    using Value_nested_ind; intros d Hd; simpl in *; try done.
  - by apply IHv.
  - apply andb_true_iff. split; [apply IHv; lia|].
    apply forallb_forall. intros x Hx. rewrite Forall_forall in H.
    apply H; [by apply list_elem_of_In|].
    pose proof (foldr_max_le (closureNesting t) cases x Hx). lia.
  - apply andb_true_iff. split.
    + apply negb_true_iff. destruct (bool_decide (t' = t)); simpl; [|done].
      apply bool_decide_eq_false. lia.
    + apply forallb_forall. intros x Hx. rewrite Forall_forall in H.
      apply H; [by apply list_elem_of_In|].
      pose proof (foldr_max_le (fun e => closureNesting t e.2) stack x Hx).
      unfold newDepth, tagBlocked. simpl.
      destruct (bool_decide (t' = t)); lia.
Qed.

Lemma truthy_inv o s : truthy o = Some s -> o = Some s /\ s <> "".
Proof. destruct o as [[|a s']|]; simpl; intros H; by inversion H. Qed.

Section Transparency.

Variable toString : Value -> string.
Variable br : option BlockRecursionProps.
Variable root : Value.
Hypothesis root_coherent : coherent root.

Lemma evalValue_canonical (v : Value) (d : N) (cache : option Cache) :
  inGraph br root v d -> canonicalCache toString br root cache ->
  exists cache',
    evalValue toString br v d cache = (renderValue toString br v d, cache')
    /\ canonicalCache toString br root cache'.
Proof.
  apply (evalValue_rendered toString br (inGraph br root)
           (canonicalCache toString br root)).
  - intros w d' c [Hw Hcut] _ Hc. split.
    + by eapply subvalues_inside.
    + by apply cutoffNeverHit_child.
  - intros c w d' s Hw (m & -> & Hm) Hhit. by eapply Hm.
  - intros c w d' s [Hw Hcut] (m & -> & Hm) Hs.
    exists (<[ident w := s]> m). split; [done|].
    intros w' d'' s' [Hw' Hcut'] Hhit.
    destruct (decide (ident w = ident w')) as [Heq|Hne].
    + assert (w = w') as <- by (by apply root_coherent).
      rewrite lookup_insert_eq in Hhit.
      apply truthy_inv in Hhit as [[= ->] _].
      rewrite <- Hs.
      rewrite (renderValue_full toString br w d'' 0 Hcut').
      by rewrite (renderValue_full toString br w d' 0 Hcut).
    + rewrite lookup_insert_ne in Hhit by done. eapply Hm; [|done]. by split.
Qed.

End Transparency.

(** C2: on a value graph whose cutoff is never hit (in particular with no
    cutoff at all), [stringifyValue] called with a fresh empty cache and
    called with no cache return the same result. *)
Theorem cache_transparent (toString : Value -> string) (v : Value)
    (br : option BlockRecursionProps) :
  coherent v ->
  cutoffNeverHit br v 0 = true ->
  exists n r cache',
    forall fuel,
      stringifyValue toString (n + fuel) v br (Some ∅) = Some (r, Some cache')
      /\ stringifyValue toString (n + fuel) v br None = Some (r, None).
Proof.
  intros Hco Hcut.
  destruct (evalValue_canonical toString br v Hco v 0 (Some ∅))
    as (c' & Hev & (m & -> & _)).
  { split; [apply subvalues_self|done]. }
  { exists ∅. split; [done|]. intros w d s _ Hhit.
    rewrite lookup_empty in Hhit. discriminate. }
  destruct (stringifyValue_evalValue toString br v (Some ∅)) as [n1 H1].
  destruct (stringifyValue_no_cache toString br v) as [n2 H2].
  exists (n1 + n2), (renderValue toString br v 0), m. intros fuel. split.
  - rewrite <- Nat.add_assoc, H1. by rewrite Hev.
  - rewrite (Nat.add_comm n1 n2), <- Nat.add_assoc. apply H2.
Qed.

Lemma sharedValue_coherent : coherent sharedValue.
Proof.
  intros a b Ha Hb Hid.
  cbv [sharedValue sharedInner subvalues mbind list_bind app snd] in Ha, Hb.
  repeat (apply elem_of_cons in Ha as [->|Ha]);
    try (by apply elem_of_nil in Ha);
    repeat (apply elem_of_cons in Hb as [->|Hb]);
    try (by apply elem_of_nil in Hb); done.
Qed.

Example sharedValue_cached :
  stringifyValue sampleToString 12 sharedValue
    (Some {| tag := 7; maxDepth := 5 |}) (Some ∅)
  = Some (Ok "Fn7[x: (4 | Error), y: (4 | Error)]",
          Some {[ 3%positive := "(4 | Error)";
                  1%positive := "Fn7[x: (4 | Error), y: (4 | Error)]" ]}).
Proof. vm_compute. reflexivity. Qed.

Lemma cache_transparent_witness :
  exists n r cache',
    forall fuel,
      stringifyValue sampleToString (n + fuel) sharedValue
        (Some {| tag := 7; maxDepth := 5 |}) (Some ∅)
      = Some (r, Some cache')
      /\ stringifyValue sampleToString (n + fuel) sharedValue
           (Some {| tag := 7; maxDepth := 5 |}) None
         = Some (r, None).
Proof.
  apply cache_transparent; [exact sharedValue_coherent|reflexivity].
Defined.

(** ** When the engine throws *)

Lemma renderList_throwsWhen {A} (f : A -> Result string) (P : A -> bool)
    (l : list A) :
  Forall (fun x => throwsWhen (f x) (P x)) l ->
  throwsWhen (renderList f l) (existsb P l).
Proof.
  induction 1 as [|x l Hx _ IH]; simpl; [done|].
  destruct (f x) as [s|msg]; simpl in Hx.
  - rewrite Hx. simpl. by destruct (renderList f l).
  - destruct Hx as [-> ->]. by split.
Qed.

Lemma renderValue_throwsWhen toString br (v : Value) :
  forall d, throwsWhen (renderValue toString br v d) (visitsForeign br v d).
Proof.
  induction v as [i|i|i|i|i|i v IHv|i pfx v cases IHv H|i t stack H|i]
    using Value_nested_ind; intros d; try done.
  - simpl. specialize (IHv d).
    by destruct (renderValue toString br v d).
  - cbn [renderValue visitsForeign].
    pose proof (renderList_throwsWhen (fun x => renderValue toString br x d)
                  (fun x => visitsForeign br x d) (v :: cases)) as Hl.
    destruct (renderList _ (v :: cases)); apply Hl; constructor; try done;
      eapply Forall_impl; try exact H; by intros x Hx.
  - cbn [renderValue visitsForeign].
    destruct (cutoffHit br t d); [done|].
    pose proof (renderList_throwsWhen
                  (fun e => renderValue toString br e.2 (newDepth br t d))
                  (fun e => visitsForeign br e.2 (newDepth br t d)) stack) as Hl.
    destruct (renderList _ stack); apply Hl;
      eapply Forall_impl; try exact H; by intros x Hx.
Qed.

Lemma visitsForeign_none (v : Value) :
  forall d, visitsForeign None v d = containsForeign v.
Proof.
  induction v as [i|i|i|i|i|i v IHv|i pfx v cases IHv H|i t stack H|i]
    using Value_nested_ind; intros d; simpl; try done.
  - rewrite IHv. f_equal. induction H as [|x l Hx _ IH]; simpl; [done|].
    by rewrite Hx, IH.
  - induction H as [|x l Hx _ IH]; simpl; [done|].
    unfold newDepth in *. simpl in *. by rewrite Hx, IH.
Qed.

Lemma evalList_length {A} (visit : A -> option Cache -> _) (l : list A) :
  forall c strs c',
    evalList visit l c = (Ok strs, c') -> length strs = length l.
Proof.
  induction l as [|x l IH]; intros c strs c' H; simpl in H.
  - by inversion H.
  - destruct (visit x c) as [[s|msg] c1]; [|discriminate].
    destruct (evalList visit l c1) as [[l'|msg] c2] eqn:Hl; [|discriminate].
    inversion H; subst. simpl. f_equal. by eapply IH.
Qed.

Section Throws.

Variable toString : Value -> string.
Variable br : option BlockRecursionProps.

Lemma evalList_throwsForeign {A} (proj : A -> Value) (d : N) (l : list A) :
  Forall (fun e => throwsForeign toString br (proj e)) l ->
  forall c msg c',
    evalList (fun e => evalValue toString br (proj e) d) l c = (Throw msg, c') ->
    msg = "unhandled value type"
    /\ existsb (fun e => containsForeign (proj e)) l = true.
Proof.
  induction 1 as [|x l Hx _ IH]; intros c msg c' H; simpl in H;
    [discriminate|].
  destruct (evalValue toString br (proj x) d c) as [[s|m] c1] eqn:Hev.
  - destruct (evalList _ l c1) as [[l'|m] c2] eqn:Hl; [discriminate|].
    inversion H; subst. destruct (IH _ _ _ Hl) as [-> Hex].
    split; [done|]. simpl. rewrite Hex. apply orb_true_r.
  - inversion H; subst. destruct (Hx _ _ _ _ Hev) as [-> Hf].
    split; [done|]. simpl. by rewrite Hf.
Qed.

Lemma combine_throw v f r msg c' :
  combine v f r = (Throw msg, c') ->
  r = (Throw msg, c') \/ exists strs, r = (Ok strs, c') /\ f strs = Throw msg.
Proof.
  destruct r as [[strs|m] c]; simpl.
  - destruct (f strs) eqn:Hf; intros H; inversion H; subst. right. eauto.
  - intros H. inversion H; subst. by left.
Qed.

Lemma evalValue_throwsForeign (v : Value) : throwsForeign toString br v.
Proof.
  induction v as [i|i|i|i|i|i v IHv|i pfx v cases IHv H|i t stack H|i]
    using Value_nested_ind; intros d c msg c';
    unfold evalValue; fold (evalValue toString br);
    (destruct (truthy (cacheGet c _)); [discriminate|]);
    try discriminate.
  - intros Hc. apply combine_throw in Hc as [Hc|(strs & _ & Hf)];
      [|discriminate].
    apply (evalList_throwsForeign (fun x => x) d [v]) in Hc as [-> Hex];
      [|constructor; [exact IHv|constructor]].
    simpl in Hex. by rewrite orb_false_r in Hex.
  - intros Hc. apply combine_throw in Hc as [Hc|(strs & _ & Hf)];
      [|discriminate].
    by apply (evalList_throwsForeign (fun x => x) d (v :: cases)) in Hc;
      [|constructor].
  - destruct (cutoffHit br t d); [discriminate|].
    destruct stack as [|e stack]; [discriminate|].
    intros Hc. apply combine_throw in Hc as [Hc|(strs & Hev & Hf)].
    + by apply (evalList_throwsForeign (fun e : BindingId * Value => e.2)
                  (newDepth br t d) (e :: stack)) in Hc.
    + apply evalList_length in Hev.
      by rewrite fnFunc_zip in Hf.
  - intros Hc. by inversion Hc.
Qed.

End Throws.



(** ** What the engine writes into the cache *)

Lemma onlyWrites_refl nodes c : onlyWrites nodes c c.
Proof. destruct c; simpl; auto. Qed.

Lemma onlyWrites_trans nodes1 nodes2 nodes c c1 c2 :
  nodes1 ⊆ nodes -> nodes2 ⊆ nodes ->
  onlyWrites nodes1 c c1 -> onlyWrites nodes2 c1 c2 -> onlyWrites nodes c c2.
Proof.
  intros H1 H2. destruct c as [m|], c1 as [m1|], c2 as [m2|]; simpl; try done.
  intros Hc1 Hc2 i.
  destruct (Hc2 i) as [->|(s & Hs & w & f & items & Hw & Hrest)].
  - destruct (Hc1 i) as [->|(s & Hs & w & f & items & Hw & Hrest)];
      [by left|].
    right. exists s. split; [done|]. exists w, f, items. split; [|done].
    by apply H1.
  - right. exists s. split; [done|]. exists w, f, items. split; [|done].
    by apply H2.
Qed.

Lemma onlyWrites_set nodes c v f items s :
  v ∈ nodes -> combinatorOf v = Some f ->
  length items = length (children v) -> f items = Ok s ->
  onlyWrites nodes c (cacheSet c v s).
Proof.
  intros Hv Hf Hlen Hs. destruct c as [m|]; simpl; [|done].
  intros i. destruct (decide (ident v = i)) as [<-|Hne].
  - right. exists s. rewrite lookup_insert_eq. split; [done|].
    by exists v, f, items.
  - left. by rewrite lookup_insert_ne.
Qed.

Section Writes.

Variable toString : Value -> string.
Variable br : option BlockRecursionProps.

Lemma evalList_writes {A} (proj : A -> Value) (d : N) (l : list A) :
  Forall (fun e => writesOwn toString br (proj e)) l ->
  forall c,
    onlyWrites (l ≫= (fun e => subvalues (proj e))) c
      (evalList (fun e => evalValue toString br (proj e) d) l c).2.
Proof.
  induction 1 as [|x l Hx _ IH]; intros c; simpl; [apply onlyWrites_refl|].
  specialize (Hx d c).
  destruct (evalValue toString br (proj x) d c) as [[s|msg] c1]; simpl in Hx.
  - specialize (IH c1).
    destruct (evalList _ l c1) as [[strs|msg] c2]; simpl in IH |- *;
      (eapply onlyWrites_trans; [| |exact Hx|exact IH]);
      intros w Hw; apply elem_of_app; auto.
  - simpl. eapply onlyWrites_trans; [| |exact Hx|apply onlyWrites_refl];
      intros w Hw; apply elem_of_app; eauto.
Qed.

(** The cache after the combinator of [v] has run on its children. *)
Lemma combine_writes v f nodes c r :
  combinatorOf v = Some f ->
  (forall strs c1, r = (Ok strs, c1) -> length strs = length (children v)) ->
  onlyWrites nodes c r.2 ->
  onlyWrites (v :: nodes) c (combine v f r).2.
Proof.
  intros Hf Hlen Hr.
  assert (Hsub : nodes ⊆ v :: nodes) by (intros x Hx; by right).
  assert (Hall : v :: nodes ⊆ v :: nodes) by done.
  destruct r as [[strs|msg] c1]; simpl in *.
  - destruct (f strs) as [s|msg] eqn:Hs; simpl.
    + apply (onlyWrites_trans _ _ _ c c1 _ Hsub Hall Hr).
      eapply onlyWrites_set; eauto. apply list_elem_of_here.
    + exact (onlyWrites_trans _ _ _ c c1 _ Hsub Hall Hr (onlyWrites_refl _ _)).
  - exact (onlyWrites_trans _ _ _ c c1 _ Hsub Hall Hr (onlyWrites_refl _ _)).
Qed.

Lemma evalValue_writes (v : Value) : writesOwn toString br v.
Proof.
  induction v as [i|i|i|i|i|i v IHv|i pfx v cases IHv H|i t stack H|i]
    using Value_nested_ind; intros d c;
    unfold evalValue; fold (evalValue toString br);
    (destruct (truthy (cacheGet c _)); [apply onlyWrites_refl|]);
    try apply onlyWrites_refl.
  - cbn [subvalues]. apply combine_writes; [done| |].
    + intros strs c1 Hev. by apply evalList_length in Hev.
    + pose proof (evalList_writes (fun x => x) d [v]
                    ltac:(by repeat constructor) c) as Hl.
      cbn [mbind list_bind] in Hl. by rewrite app_nil_r in Hl.
  - cbn [subvalues]. apply combine_writes; [done| |].
    + intros strs c1 Hev. by apply evalList_length in Hev.
    + exact (evalList_writes (fun x => x) d (v :: cases)
               ltac:(by constructor) c).
  - destruct (cutoffHit br t d); [apply onlyWrites_refl|].
    destruct stack as [|e stack]; [apply onlyWrites_refl|].
    cbn [subvalues]. apply combine_writes; [done| |].
    + intros strs c1 Hev. apply evalList_length in Hev.
      unfold children. by rewrite length_map.
    + exact (evalList_writes (fun e : BindingId * Value => e.2)
               (newDepth br t d) (e :: stack) H c).
Qed.

End Writes.

(** The output of a closure's combinator is never the bare placeholder. *)
Lemma fnFunc_not_placeholder t stack items s :
  fnFunc t stack items = Ok s -> s <> "Fn" +:+ pretty t.
Proof.
  unfold fnFunc. destruct (stackEntries stack 0 items); [|discriminate].
  intros [= <-] Heq.
  apply (inj (String.append "Fn")) in Heq.
  rewrite <- (append_nil_r (pretty t)) in Heq at 2.
  apply (inj (String.append (pretty t))) in Heq. discriminate.
Qed.

(** C10: a call with a cache [m] leaves a cache [m'] that differs from [m]
    only at identities of composite nodes of the graph (a [MaybeErrorValue],
    a [BranchedValue], a [FuncValue] with a non-empty environment), where it
    holds what the node's combinator returned for one string per child.
    Hence the entry of a node that owns no combinator (a leaf, a closure
    with an empty environment) is left as it was, an entry written for a
    closure is never the placeholder, and one iteration of the loop changes
    the cache only when it completes a frame.  Without a cache there is
    nothing the call can change. *)
Theorem cache_written_by_combinators (toString : Value -> string)
    (v : Value) (br : option BlockRecursionProps) (m : Cache) :
  (exists n r m',
      (forall fuel,
          stringifyValue toString (n + fuel) v br (Some m) = Some (r, Some m'))
      /\ (forall i,
            m' !! i = m !! i
            \/ exists s, m' !! i = Some s /\ writtenBy (subvalues v) i s)
      /\ (coherent v ->
          forall w, w ∈ subvalues v -> combinatorOf w = None ->
            m' !! ident w = m !! ident w)
      /\ (coherent v ->
          forall i t stack,
            FuncValue i t stack ∈ subvalues v ->
            m' !! i = m !! i \/ m' !! i <> Some ("Fn" +:+ pretty t)))
  /\ (forall state frames cache state' frames' cache',
        loopBody toString br state frames cache
        = Continue state' frames' cache' ->
        cache' = cache
        \/ exists item fr rest s,
             state = reduce item /\ frames = fr :: rest
             /\ length (stringifiedValues fr ++ [item]) = length (values fr)
             /\ fn fr (stringifiedValues fr ++ [item]) = Ok s
             /\ cache' = cacheSet cache (owner fr) s)
  /\ (forall fuel r cache',
        stringifyValue toString fuel v br None = Some (r, cache') ->
        cache' = None).
Proof.
  split; [|split].
  - destruct (stringifyValue_evalValue toString br v (Some m)) as [n Hn].
    pose proof (evalValue_writes toString br v 0%N (Some m)) as Hw.
    destruct (evalValue toString br v 0 (Some m)) as [r [m'|]] eqn:Hev;
      simpl in Hw; [|done].
    exists n, r, m'. split; [exact Hn|]. split; [exact Hw|]. split.
    + intros Hco w Hin Hnone.
      destruct (Hw (ident w)) as [|(s & _ & w' & f & items & Hw' & Hid & Hf & _)];
        [done|].
      apply Hco in Hid; [|done..]. subst w'. congruence.
    + intros Hco i t stack Hin.
      destruct (Hw i) as [|(s & Hs & w' & f & items & Hw' & Hid & Hf & _ & Hout)];
        [by left|].
      right. rewrite Hs. intros [= ->].
      assert (w' = FuncValue i t stack) as -> by (by apply Hco).
      destruct stack as [|e stack]; [discriminate|].
      simpl in Hf. inversion Hf; subst f.
      by eapply fnFunc_not_placeholder.
  - intros state frames cache state' frames' cache' Hstep.
    destruct state as [[w d]|item]; unfold loopBody in Hstep;
      cbn [value depth] in Hstep.
    + left. destruct (truthy (cacheGet cache w)); [by inversion Hstep|].
      destruct w as [i|i|i|i|i|i inner|i pfx cond cases|i t stack|i];
        try (by inversion Hstep).
      destruct (cutoffHit br t d); [by inversion Hstep|].
      destruct stack as [|[id0 v0] rest]; by inversion Hstep.
    + destruct frames as [|fr rest]; [discriminate|].
      destruct (bool_decide _) eqn:Hlen.
      * destruct (fn fr _) as [s|msg] eqn:Hs; [|discriminate].
        right. exists item, fr, rest, s. apply bool_decide_eq_true in Hlen.
        inversion Hstep. by repeat split.
      * left. destruct (values fr !! _); by inversion Hstep.
  - intros fuel r cache' H. apply stringifyValue_unique in H.
    rewrite evalValue_no_cache in H. by inversion H.
Qed.

(** ** Rendering a whole environment *)

Section StackValuesRendering.

Variable toString : Value -> string.
Variable br : option BlockRecursionProps.

Lemma stackItems_enough_fuel (entries : list (BindingId * Value)) :
  forall cache, exists n, forall fuel,
    stackItems toString (n + fuel) entries br cache
    = Some (stackItemsResult toString br entries cache).
Proof.
  unfold stackItemsResult.
  induction entries as [|[id v] rest IH]; intros cache.
  - exists 0. reflexivity.
  - destruct (stringifyValue_evalValue toString br v cache) as [n1 H1].
    cbn [evalList stackItems snd].
    destruct (evalValue toString br v 0 cache) as [[s|msg] c1] eqn:Hev.
    + destruct (IH c1) as [n2 H2]. exists (n1 + n2). intros fuel.
      assert (Hv : stringifyValue toString (n1 + n2 + fuel) v br cache
                   = Some (Ok s, c1))
        by (rewrite <- Nat.add_assoc; apply H1).
      assert (Hrest : stackItems toString (n1 + n2 + fuel) rest br c1
                = Some (match evalList (fun e => evalValue toString br e.2 0)
                                rest c1 with
                        | (Ok strs, cache') =>
                            (Ok (zip_with entryText rest strs), cache')
                        | (Throw msg, cache') => (Throw msg, cache')
                        end))
        by (replace (n1 + n2 + fuel) with (n2 + (n1 + fuel)) by lia;
            apply H2).
      rewrite Hv, Hrest.
      by destruct (evalList _ rest c1) as [[strs|msg] c2].
    + exists n1. intros fuel. by rewrite H1.
Qed.

Lemma stackItems_stringified fuel (entries : list (BindingId * Value)) :
  forall cache items cache',
    stackItems toString fuel entries br cache = Some (Ok items, cache') <->
    exists strs,
      bindingsStringified toString fuel br cache entries strs cache'
      /\ items = zip_with entryText entries strs.
Proof.
  induction entries as [|[id v] rest IH]; intros cache items cache'.
  - simpl. split.
    + intros [= <- <-]. exists []. split; [constructor|done].
    + intros (strs & Hb & ->). by inversion Hb; subst.
  - cbn [stackItems]. split.
    + destruct (stringifyValue toString fuel v br cache)
        as [[[s|msg] c1]|] eqn:Hv; try discriminate.
      destruct (stackItems toString fuel rest br c1)
        as [[[l|msg] c2]|] eqn:Hrest; try discriminate.
      intros [= <- <-]. apply IH in Hrest as (strs & Hb & ->).
      exists (s :: strs). split; [by econstructor|done].
    + intros (strs & Hb & ->). inversion Hb as [|? ? ? ? s c1 l ? Hv Hl]; subst.
      rewrite Hv.
      assert (Hrest : stackItems toString fuel rest br c1
                      = Some (Ok (zip_with entryText rest l), cache'))
        by (apply IH; eauto).
      by rewrite Hrest.
Qed.

End StackValuesRendering.

(** C5: [stringifyStackValues] always comes to an end; it returns a string
    exactly when [stringifyValue], called on the bindings' values in their
    order with the same cutoff and the one shared cache, returns a string
    [si] for each, and the string returned is then "[" followed by the
    entries [idi + ": " + si] joined by ", " and by "]", the cache being
    left as the last call leaves it.  On bindings free of foreign objects
    that is what happens. *)
Theorem stack_values_rendering (toString : Value -> string)
    (br : option BlockRecursionProps) (vals : StackValues)
    (cache : option Cache) :
  (exists n r, forall fuel,
      stringifyStackValues toString (n + fuel) vals br cache = Some r)
  /\ (forall fuel s cache',
        stringifyStackValues toString fuel vals br cache
        = Some (Ok s, cache') <->
        exists strs,
          bindingsStringified toString fuel br cache (sv_values vals) strs
            cache'
          /\ s = "[" +:+ join ", " (zip_with entryText (sv_values vals) strs)
                 +:+ "]")
  /\ (forallb (fun e => negb (containsForeign e.2)) (sv_values vals) = true ->
      exists n s cache', forall fuel,
        stringifyStackValues toString (n + fuel) vals br cache
        = Some (Ok s, cache')).
Proof.
  destruct (stackItems_enough_fuel toString br (sv_values vals) cache)
    as [n Hn].
  split; [|split].
  - unfold stringifyStackValues.
    destruct (stackItemsResult toString br (sv_values vals) cache)
      as [[items|msg] c'] eqn:Hr; eexists n, _; intros fuel;
      rewrite Hn; reflexivity.
  - intros fuel s cache'. unfold stringifyStackValues. split.
    + destruct (stackItems toString fuel (sv_values vals) br cache)
        as [[[items|msg] c1]|] eqn:Hitems; try discriminate.
      intros [= <- <-].
      apply stackItems_stringified in Hitems as (strs & Hb & ->). eauto.
    + intros (strs & Hb & ->).
      assert (Hitems : stackItems toString fuel (sv_values vals) br cache
                = Some (Ok (zip_with entryText (sv_values vals) strs), cache'))
        by (apply stackItems_stringified; eauto).
      by rewrite Hitems.
  - intros Hsealed. unfold stringifyStackValues.
    unfold stackItemsResult in Hn.
    destruct (evalList (fun e => evalValue toString br e.2 0)
                (sv_values vals) cache) as [[strs|msg] c'] eqn:Hev.
    + eexists n, _, c'. intros fuel. by rewrite Hn.
    + apply (evalList_throwsForeign toString br
               (fun e : BindingId * Value => e.2)) in Hev as [_ Hex].
      * apply existsb_exists in Hex as (e & He & Hf).
        rewrite forallb_forall in Hsealed. specialize (Hsealed e He).
        by rewrite Hf in Hsealed.
      * apply Forall_forall. intros e _. apply evalValue_throwsForeign.
Qed.

Lemma stack_values_rendering_witness :
  exists n s cache', forall fuel,
    stringifyStackValues sampleToString (n + fuel)
      {| sv_values := [(NumId 1, sharedInner); (NumId 2, sharedInner)] |}
      None (Some ∅)
    = Some (Ok s, cache').
Proof.
  exact (proj2 (proj2 (stack_values_rendering sampleToString None
    {| sv_values := [(NumId 1, sharedInner); (NumId 2, sharedInner)] |}
    (Some ∅))) eq_refl).
Defined.

Example stack_values_example :
  stringifyStackValues sampleToString 6
    {| sv_values := [(NumId 1, sharedInner); (NumId 2, sharedInner)] |}
    None (Some ∅)
  = Some (Ok "[1: (4 | Error), 2: (4 | Error)]",
          Some {[ 3%positive := "(4 | Error)" ]}).
Proof. vm_compute. reflexivity. Qed.

(** * Further properties of the engine *)

(** ** What is written is a hit afterwards *)

(** The three combinators never return the empty string. *)
Lemma combinator_nonempty v f items s :
  combinatorOf v = Some f -> f items = Ok s -> s <> "".
Proof.
  destruct v as [i|i|i|i|i|i inner|i pfx cond cases|i t [|e stack]|i];
    simpl; intros [= <-]; try discriminate.
  - intros [= <-]. discriminate.
  - intros [= <-]. by destruct pfx.
  - unfold fnFunc. destruct (stackEntries _ 0 items); [|discriminate].
    intros [= <-]. discriminate.
Qed.

Lemma truthy_nonempty s : s <> "" -> truthy (Some s) = Some s.
Proof. by destruct s. Qed.

(** A supplied cache stays a supplied cache. *)
Lemma onlyWrites_some nodes m c' :
  onlyWrites nodes (Some m) c' -> exists m', c' = Some m'.
Proof. destruct c' as [m'|]; simpl; [eauto|done]. Qed.

Lemma onlyWrites_none nodes c' : onlyWrites nodes None c' -> c' = None.
Proof. by destruct c'. Qed.

Section Memo.

Variable toString : Value -> string.
Variable br : option BlockRecursionProps.

Lemma evalValue_hit v d c s :
  truthy (cacheGet c v) = Some s -> evalValue toString br v d c = (Ok s, c).
Proof. intros H. destruct v; simpl; by rewrite H. Qed.

(** The string of a composite value that was expanded is recorded under
    the value's own identity. *)
Lemma combine_recorded v f r s c' :
  combinatorOf v = Some f ->
  combine v f r = (Ok s, c') ->
  exists c1, c' = cacheSet c1 v s /\ r.2 = c1 /\ s <> "".
Proof.
  intros Hf. destruct r as [[strs|msg] c1]; simpl; [|discriminate].
  destruct (f strs) as [s'|msg] eqn:Hs; intros [= <- <-].
  exists c1. repeat split. by eapply combinator_nonempty.
Qed.

Lemma cacheSet_hit c1 v s c :
  onlyWrites (subvalues v) c c1 -> s <> "" ->
  match c with
  | Some _ => truthy (cacheGet (cacheSet c1 v s) v) = Some s
  | None => cacheSet c1 v s = None
  end.
Proof.
  intros Hw Hs. destruct c as [m|].
  - apply onlyWrites_some in Hw as [m1 ->]. simpl.
    rewrite lookup_insert_eq. by apply truthy_nonempty.
  - by apply onlyWrites_none in Hw as ->.
Qed.

(** Evaluating again from the cache a successful evaluation has left gives
    the same string and leaves that cache as it is. *)
Lemma evalValue_again v d c s c' :
  evalValue toString br v d c = (Ok s, c') ->
  evalValue toString br v d c' = (Ok s, c').
Proof.
  intros Hev.
  destruct (truthy (cacheGet c v)) as [cached|] eqn:Hhit.
  { rewrite (evalValue_hit _ _ _ _ Hhit) in Hev. inversion Hev; subst.
    by apply evalValue_hit. }
  assert (Hcomposite : forall f r,
    combinatorOf v = Some f -> onlyWrites (subvalues v) c r.2 ->
    evalValue toString br v d c = combine v f r ->
    evalValue toString br v d c' = (Ok s, c')).
  { intros f r Hf Hw Heq. rewrite Heq in Hev.
    destruct (combine_recorded _ _ _ _ _ Hf Hev) as (c1 & Hc' & <- & Hs).
    pose proof (cacheSet_hit _ v s _ Hw Hs) as Hset.
    destruct c as [m|].
    - subst c'. by apply evalValue_hit.
    - rewrite Hset in Hc'. subst c'. by rewrite Heq. }
  assert (Hnodes : forall w, w ∈ children v -> subvalues w ⊆ subvalues v).
  { intros w Hw u Hu. eapply subvalues_trans; [|exact Hu].
    by apply subvalues_child. }
  destruct v as [i|i|i|i|i|i inner|i pfx cond cases|i t stack|i];
    unfold evalValue in Hev; fold (evalValue toString br) in Hev;
    rewrite Hhit in Hev.
  1-5: inversion Hev; subst; unfold evalValue; by rewrite Hhit.
  - eapply (Hcomposite fnMaybeError); [done| |].
    + pose proof (evalList_writes toString br (fun x => x) d [inner]
        ltac:(constructor; [apply evalValue_writes|constructor]) c) as Hl.
      cbn [mbind list_bind] in Hl. rewrite app_nil_r in Hl.
      eapply onlyWrites_trans; [| |exact Hl|apply onlyWrites_refl];
        [|done]. intros u Hu. by right.
    + unfold evalValue; fold (evalValue toString br). by rewrite Hhit.
  - eapply (Hcomposite (fnBranched pfx)); [done| |].
    + pose proof (evalList_writes toString br (fun x => x) d (cond :: cases)
        ltac:(apply Forall_forall; intros; apply evalValue_writes) c) as Hl.
      eapply onlyWrites_trans; [| |exact Hl|apply onlyWrites_refl];
        [|done]. intros u Hu. by right.
    + unfold evalValue; fold (evalValue toString br). by rewrite Hhit.
  - destruct (cutoffHit br t d) eqn:Hcut.
    { inversion Hev; subst. unfold evalValue. by rewrite Hhit, Hcut. }
    destruct stack as [|e stack].
    { inversion Hev; subst. unfold evalValue. by rewrite Hhit, Hcut. }
    eapply (Hcomposite (fnFunc t (e :: stack))); [done| |].
    + pose proof (evalList_writes toString br
        (fun e : BindingId * Value => e.2) (newDepth br t d) (e :: stack)
        ltac:(apply Forall_forall; intros; apply evalValue_writes) c) as Hl.
      eapply onlyWrites_trans; [| |exact Hl|apply onlyWrites_refl];
        [|done]. intros u Hu. by right.
    + unfold evalValue; fold (evalValue toString br).
      by rewrite Hhit, Hcut.
  - discriminate.
Qed.

End Memo.

(** X1: when a call returns a string, calling again with the same value and
    cutoff and with the cache as the first call left it returns the same
    string and leaves that cache unchanged. *)
Theorem second_call_returns_same (toString : Value -> string) (v : Value)
    (br : option BlockRecursionProps) (c : option Cache) (fuel : nat)
    (s : string) (c' : option Cache) :
  stringifyValue toString fuel v br c = Some (Ok s, c') ->
  exists n, forall fuel',
    stringifyValue toString (n + fuel') v br c' = Some (Ok s, c').
Proof.
  intros H. apply stringifyValue_unique in H. symmetry in H.
  apply evalValue_again in H.
  destruct (stringifyValue_evalValue toString br v c') as [n Hn].
  exists n. intros fuel'. by rewrite Hn, H.
Qed.

Lemma second_call_returns_same_witness :
  exists n, forall fuel',
    stringifyValue sampleToString (n + fuel') sharedValue
      (Some {| tag := 7; maxDepth := 5 |})
      (Some {[ 3%positive := "(4 | Error)";
               1%positive := "Fn7[x: (4 | Error), y: (4 | Error)]" ]})
    = Some (Ok "Fn7[x: (4 | Error), y: (4 | Error)]",
            Some {[ 3%positive := "(4 | Error)";
                    1%positive := "Fn7[x: (4 | Error), y: (4 | Error)]" ]}).
Proof.
  exact (second_call_returns_same sampleToString sharedValue _ _ 12 _ _
           sharedValue_cached).
Defined.

(** X2: a call never removes an entry from the supplied cache, every entry
    it writes is a non-empty string (so that the test [if (cached)] takes it
    for a hit later on), and the entries under keys that are not the
    identity of a node of the graph are left untouched. *)
Theorem cache_entries_kept_and_truthy (toString : Value -> string)
    (v : Value) (br : option BlockRecursionProps) (m : Cache) :
  exists n r m',
    (forall fuel,
        stringifyValue toString (n + fuel) v br (Some m) = Some (r, Some m'))
    /\ (forall i, m' !! i = m !! i \/ exists s, m' !! i = Some s /\ s <> "")
    /\ (forall i, is_Some (m !! i) -> is_Some (m' !! i))
    /\ (forall i, (forall w, w ∈ subvalues v -> ident w <> i) ->
                  m' !! i = m !! i).
Proof.
  destruct (stringifyValue_evalValue toString br v (Some m)) as [n Hn].
  pose proof (evalValue_writes toString br v 0%N (Some m)) as Hw.
  destruct (evalValue toString br v 0 (Some m)) as [r [m'|]] eqn:Hev;
    simpl in Hw; [|done].
  exists n, r, m'. split; [exact Hn|]. repeat split.
  - intros i. destruct (Hw i) as [|(s & Hs & w & f & items & _ & _ & Hf & _ & Hout)];
      [by left|].
    right. exists s. split; [done|]. by eapply combinator_nonempty.
  - intros i Hi. destruct (Hw i) as [->|(s & -> & _)]; [done|by eexists].
  - intros i Hout. destruct (Hw i) as [|(s & _ & w & f & items & Hin & Hid & _)];
      [done|].
    by apply Hout in Hin.
Qed.

(** ** A closure is its tag followed by its environment *)

(** X3: for a closure whose tag is not the blocked tag and for which no
    non-empty string is cached, [stringifyValue] returns "Fn" + tag followed
    by what [stringifyStackValues] returns for the captured environment with
    the same cutoff and cache; both throw alike; the caches they leave
    differ only by the closure's own entry. *)
Theorem closure_is_tag_then_environment (toString : Value -> string)
    (i : Ident) (t : N) (stack : list (BindingId * Value))
    (br : option BlockRecursionProps) (c : option Cache) :
  tagBlocked br t = false ->
  truthy (cacheGet c (FuncValue i t stack)) = None ->
  exists n r c1,
    (forall fuel,
        stringifyStackValues toString (n + fuel) {| sv_values := stack |} br c
        = Some (r, c1))
    /\ (forall fuel,
          stringifyValue toString (n + fuel) (FuncValue i t stack) br c
          = Some match r with
                 | Ok s =>
                     (Ok ("Fn" +:+ pretty t +:+ s),
                      match stack with
                      | [] => c1
                      | _ :: _ =>
                          cacheSet c1 (FuncValue i t stack)
                            ("Fn" +:+ pretty t +:+ s)
                      end)
                 | Throw msg => (Throw msg, c1)
                 end).
Proof.
  intros Htag Hmiss.
  assert (Hcut : cutoffHit br t 0 = false).
  { unfold cutoffHit, tagBlocked in *. destruct br as [b|]; [|done].
    by rewrite Htag. }
  assert (Hnd : newDepth br t 0 = 0%N) by (unfold newDepth; by rewrite Htag).
  destruct (stackItems_enough_fuel toString br stack c) as [n1 H1].
  destruct (stringifyValue_evalValue toString br (FuncValue i t stack) c)
    as [n2 H2].
  assert (H1' : forall fuel,
    stackItems toString (n1 + n2 + fuel) stack br c
    = Some (stackItemsResult toString br stack c))
    by (intros fuel; rewrite <- Nat.add_assoc; apply H1).
  assert (H2' : forall fuel,
    stringifyValue toString (n1 + n2 + fuel) (FuncValue i t stack) br c
    = Some (evalValue toString br (FuncValue i t stack) 0 c)).
  { intros fuel. replace (n1 + n2 + fuel) with (n2 + (n1 + fuel)) by lia.
    apply H2. }
  unfold stringifyStackValues. cbn [sv_values].
  unfold stackItemsResult in H1'.
  assert (Hev : evalValue toString br (FuncValue i t stack) 0 c
    = match stack with
      | [] => (Ok ("Fn" +:+ pretty t +:+ "[]"), c)
      | _ :: _ =>
          combine (FuncValue i t stack) (fnFunc t stack)
            (evalList (fun e => evalValue toString br e.2 0) stack c)
      end).
  { unfold evalValue; fold (evalValue toString br).
    rewrite Hmiss, Hcut, Hnd. by destruct stack. }
  destruct (evalList (fun e => evalValue toString br e.2 0) stack c)
    as [[strs|msg] c1] eqn:Hl.
  - exists (n1 + n2),
      (Ok ("[" +:+ join ", " (zip_with entryText stack strs) +:+ "]")), c1.
    split; intros fuel; [by rewrite H1'|].
    rewrite H2', Hev. destruct stack as [|e stack].
    + simpl in Hl. by inversion Hl; subst.
    + simpl. by rewrite fnFunc_zip by (by apply evalList_length in Hl).
  - exists (n1 + n2), (Throw msg), c1.
    split; intros fuel; [by rewrite H1'|].
    rewrite H2', Hev. destruct stack as [|e stack]; [discriminate|done].
Qed.

Lemma closure_is_tag_then_environment_witness :
  exists n r c1,
    (forall fuel,
        stringifyStackValues sampleToString (n + fuel)
          {| sv_values := [(StrId "x", sharedInner); (StrId "y", sharedInner)] |}
          None (Some ∅)
        = Some (r, c1))
    /\ (forall fuel,
          stringifyValue sampleToString (n + fuel) sharedValue None (Some ∅)
          = Some match r with
                 | Ok s =>
                     (Ok ("Fn" +:+ pretty 7%N +:+ s),
                      cacheSet c1 sharedValue ("Fn" +:+ pretty 7%N +:+ s))
                 | Throw msg => (Throw msg, c1)
                 end).
Proof.
  exact (closure_is_tag_then_environment sampleToString 1 7
           [(StrId "x", sharedInner); (StrId "y", sharedInner)] None (Some ∅)
           eq_refl eq_refl).
Defined.

(** ** A cutoff that is out of reach *)

(** X4: without a cache, a cutoff whose [maxDepth] is at least the number of
    closures of the blocked definition nested in one another changes
    nothing: the call returns what it returns with no cutoff. *)
Theorem shallow_nesting_ignores_cutoff (toString : Value -> string)
    (v : Value) (t k : N) :
  (closureNesting t v <= k)%N ->
  exists n r, forall fuel,
    stringifyValue toString (n + fuel) v
      (Some {| tag := t; maxDepth := k |}) None = Some (r, None)
    /\ stringifyValue toString (n + fuel) v None None = Some (r, None).
Proof.
  intros Hk.
  destruct (stringifyValue_no_cache toString
              (Some {| tag := t; maxDepth := k |}) v) as [n1 H1].
  destruct (stringifyValue_no_cache toString None v) as [n2 H2].
  exists (n1 + n2), (renderValue toString None v 0). intros fuel. split.
  - rewrite <- Nat.add_assoc, H1.
    rewrite (renderValue_full toString _ v 0 0); [done|].
    apply cutoffNeverHit_large_maxDepth. lia.
  - replace (n1 + n2 + fuel) with (n2 + (n1 + fuel)) by lia. apply H2.
Qed.

Lemma shallow_nesting_ignores_cutoff_witness :
  exists n r, forall fuel,
    stringifyValue sampleToString (n + fuel) sharedValue
      (Some {| tag := 7; maxDepth := 1 |}) None = Some (r, None)
    /\ stringifyValue sampleToString (n + fuel) sharedValue None None
       = Some (r, None).
Proof.
  apply shallow_nesting_ignores_cutoff. vm_compute. discriminate.
Defined.

(** ** The cache as a table of canonical forms *)

Lemma subvalue_never_hit br (v : Value) :
  forall w d, w ∈ subvalues v -> cutoffNeverHit br v d = true ->
    exists d', cutoffNeverHit br w d' = true.
Proof.
  induction v as [i|i|i|i|i|i v IHv|i pfx v cases IHv H|i t stack H|i]
    using Value_nested_ind; intros w d Hw Hv; simpl in Hw;
    apply elem_of_cons in Hw as [->|Hw]; eauto;
    try (by apply elem_of_nil in Hw).
  - simpl in Hv. apply andb_true_iff in Hv as [Hcond Hcases].
    apply elem_of_app in Hw as [Hw|Hw]; [eauto|].
    apply list_elem_of_bind in Hw as (x & Hx & Hin).
    rewrite Forall_forall in H. rewrite forallb_forall in Hcases.
    eapply H; [done..|]. by apply Hcases, list_elem_of_In.
  - simpl in Hv. apply andb_true_iff in Hv as [_ Hstack].
    apply list_elem_of_bind in Hw as (x & Hx & Hin).
    rewrite Forall_forall in H. rewrite forallb_forall in Hstack.
    eapply H; [done..|]. by apply Hstack, list_elem_of_In.
Qed.

(** X5: after a call with a fresh cache on a graph whose cutoff is never
    hit, every entry of the cache is keyed by a node of the graph and holds
    that node's own canonical form: the string [stringifyValue] returns for
    the node with neither cutoff nor cache. *)
Theorem cache_holds_canonical_forms (toString : Value -> string)
    (v : Value) (br : option BlockRecursionProps) :
  coherent v ->
  cutoffNeverHit br v 0 = true ->
  exists n r m',
    (forall fuel,
        stringifyValue toString (n + fuel) v br (Some ∅) = Some (r, Some m'))
    /\ (forall i s,
          m' !! i = Some s ->
          exists w,
            w ∈ subvalues v /\ ident w = i
            /\ exists k, forall fuel,
                 stringifyValue toString (k + fuel) w None None
                 = Some (Ok s, None)).
Proof.
  intros Hco Hcut.
  destruct (evalValue_canonical toString br v Hco v 0 (Some ∅))
    as (c' & Hev & (m' & -> & Hm)).
  { split; [apply subvalues_self|done]. }
  { exists ∅. split; [done|]. intros w d s _ Hhit.
    rewrite lookup_empty in Hhit. discriminate. }
  destruct (stringifyValue_evalValue toString br v (Some ∅)) as [n Hn].
  exists n, (renderValue toString br v 0), m'. split.
  { intros fuel. by rewrite Hn, Hev. }
  intros i s Hs.
  pose proof (evalValue_writes toString br v 0%N (Some ∅)) as Hw.
  rewrite Hev in Hw. simpl in Hw.
  destruct (Hw i) as [Hi|(s' & Hs' & w & f & items & Hin & Hid & Hf & _ & Hout)].
  { rewrite lookup_empty in Hi. congruence. }
  assert (s' = s) as -> by congruence.
  exists w. split; [done|]. split; [done|].
  destruct (subvalue_never_hit br v w 0 Hin Hcut) as [d' Hd'].
  assert (Hr : renderValue toString br w d' = Ok s).
  { apply Hm; [by split|]. rewrite Hid, Hs.
    apply truthy_nonempty. by eapply combinator_nonempty. }
  rewrite (renderValue_full toString br w d' 0 Hd') in Hr.
  destruct (stringifyValue_no_cache toString None w) as [k Hk].
  exists k. intros fuel. by rewrite Hk, Hr.
Qed.

Lemma cache_holds_canonical_forms_witness :
  exists n r m',
    (forall fuel,
        stringifyValue sampleToString (n + fuel) sharedValue
          (Some {| tag := 7; maxDepth := 5 |}) (Some ∅)
        = Some (r, Some m'))
    /\ (forall i s,
          m' !! i = Some s ->
          exists w,
            w ∈ subvalues sharedValue /\ ident w = i
            /\ exists k, forall fuel,
                 stringifyValue sampleToString (k + fuel) w None None
                 = Some (Ok s, None)).
Proof.
  apply cache_holds_canonical_forms;
    [exact sharedValue_coherent|reflexivity].
Defined.

(** ** The number of iterations *)

Section Counting.

Variable toString : Value -> string.
Variable br : option BlockRecursionProps.

Lemma reachesIn_step n state frames cache state' frames' cache' target r :
  loopBody toString br state frames cache = Continue state' frames' cache' ->
  reachesIn toString br n state' frames' cache' target r ->
  reachesIn toString br (S n) state frames cache target r.
Proof. intros Hstep Hr fuel. simpl. rewrite Hstep. apply Hr. Qed.

Lemma reachesIn_raise state frames cache target msg :
  loopBody toString br state frames cache = Raise msg cache ->
  reachesIn toString br 1 state frames cache target (Throw msg, cache).
Proof. intros Hstep fuel. simpl. by rewrite Hstep. Qed.

Lemma reachesIn_refl s frames cache :
  reachesIn toString br 0 (reduce s) frames cache frames (Ok s, cache).
Proof. intros fuel. reflexivity. Qed.

Lemma reachesIn_then n1 n2 state frames cache mid s cache1 target r :
  reachesIn toString br n1 state frames cache mid (Ok s, cache1) ->
  reachesIn toString br n2 (reduce s) mid cache1 target r ->
  reachesIn toString br (n1 + n2) state frames cache target r.
Proof.
  intros H1 H2 fuel. rewrite <- Nat.add_assoc, H1. apply H2.
Qed.

Section CountedChildren.

Context {A : Type}.
Variable proj : A -> Value.
Variable d : N.
Variable o : Value.
Variable f : list string -> Result string.
Variable frames : list Frame.

Local Abbreviation mk := (itemAt proj d).
Local Abbreviation visitChild :=
  (fun e : A => evalValue toString br (proj e) d).
Local Abbreviation costChild :=
  (fun e : A => evalCost toString br (proj e) d).

Lemma engine_children_counted (rest : list A) :
  Forall (fun e => simulatedIn toString br (proj e)) rest ->
  forall x, simulatedIn toString br (proj x) ->
  forall strs pre cache,
    length pre = length strs ->
    reachesIn toString br (costList visitChild costChild (x :: rest) cache)
      (compute (mk x))
      ({| owner := o; values := (pre ++ map mk (x :: rest))%list;
          stringifiedValues := strs; fn := f |} :: frames)
      cache frames
      (combine o (fun l => f (strs ++ l)%list)
         (evalList visitChild (x :: rest) cache)).
Proof.
  induction rest as [|y rest IH]; intros Hrest x Hx strs pre cache Hlen.
  - specialize (Hx d cache
      ({| owner := o; values := (pre ++ [mk x])%list;
          stringifiedValues := strs; fn := f |} :: frames)).
    cbn [costList evalList map].
    destruct (evalValue toString br (proj x) d cache) as [[s|msg] c1] eqn:Hev.
    + assert (Hbody : loopBody toString br (reduce s)
         ({| owner := o; values := (pre ++ [mk x])%list;
             stringifiedValues := strs; fn := f |} :: frames) c1
         = match f (strs ++ [s])%list with
           | Ok s' => Continue (reduce s') frames (cacheSet c1 o s')
           | Throw msg => Raise msg c1
           end).
      { simpl. rewrite bool_decide_eq_true_2; [done|].
        rewrite !length_app. simpl. lia. }
      simpl. destruct (f (strs ++ [s])%list) as [s'|msg] eqn:Hf.
      * eapply reachesIn_then; [exact Hx|].
        eapply reachesIn_step; [exact Hbody|]. apply reachesIn_refl.
      * eapply reachesIn_then; [exact Hx|].
        apply reachesIn_raise. exact Hbody.
    + rewrite Nat.add_0_r. exact Hx.
  - inversion Hrest as [|? ? Hy Hrest']; subst.
    pose (fr := {| owner := o; values := (pre ++ map mk (x :: y :: rest))%list;
                   stringifiedValues := strs; fn := f |}).
    specialize (Hx d cache (fr :: frames)). fold fr.
    change (evalList visitChild (x :: y :: rest) cache)
      with (match evalValue toString br (proj x) d cache with
            | (Ok s, cache1) =>
                match evalList visitChild (y :: rest) cache1 with
                | (Ok l, cache2) => (Ok (s :: l), cache2)
                | (Throw msg, cache2) => (Throw msg, cache2)
                end
            | (Throw msg, cache1) => (Throw msg, cache1)
            end).
    change (costList visitChild costChild (x :: y :: rest) cache)
      with (evalCost toString br (proj x) d cache +
            match evalValue toString br (proj x) d cache with
            | (Ok _, cache1) =>
                1 + costList visitChild costChild (y :: rest) cache1
            | (Throw _, _) => 0
            end).
    destruct (evalValue toString br (proj x) d cache) as [[s|msg] c1] eqn:Hev.
    + specialize (IH Hrest' y Hy (strs ++ [s])%list (pre ++ [mk x])%list c1).
      assert (Hlen' : length (pre ++ [mk x])%list = length (strs ++ [s])%list)
        by (rewrite !length_app; simpl; lia).
      specialize (IH Hlen').
      rewrite <- app_assoc in IH.
      assert (Hbody : loopBody toString br (reduce s) (fr :: frames) c1
         = Continue (compute (mk y))
             ({| owner := o; values := (pre ++ map mk (x :: y :: rest))%list;
                 stringifiedValues := (strs ++ [s])%list; fn := f |}
              :: frames) c1).
      { simpl. rewrite bool_decide_eq_false_2.
        2:{ rewrite !length_app. simpl. rewrite length_map. lia. }
        rewrite lookup_app_r; rewrite !length_app; simpl; [|lia].
        replace (length strs + 1 - length pre) with 1 by lia.
        reflexivity. }
      eapply reachesIn_then; [exact Hx|].
      eapply reachesIn_step; [exact Hbody|].
      revert IH.
      destruct (evalList visitChild (y :: rest) c1) as [[l|msg] c2] eqn:Hl;
        simpl; intros IH.
      * intros fuel. specialize (IH fuel). simpl in IH.
        rewrite <- app_assoc in IH. exact IH.
      * exact IH.
    + rewrite Nat.add_0_r. exact Hx.
Qed.

End CountedChildren.

Lemma engine_simulated_counted (v : Value) : simulatedIn toString br v.
Proof.
  induction v as [i|i|i|i|i|i v IHv|i pfx v cases IHv H|i t stack H|i]
    using Value_nested_ind; intros d cache frames;
    unfold evalValue, evalCost;
    fold (evalValue toString br); fold (evalCost toString br).
  1-5: destruct (truthy (cacheGet cache _)) as [cached|] eqn:Hc;
    (eapply reachesIn_step;
     [simpl; rewrite Hc; reflexivity|apply reachesIn_refl]).
  - destruct (truthy (cacheGet cache (MaybeErrorValue i v))) as [cached|] eqn:Hc.
    { eapply reachesIn_step;
        [simpl; rewrite Hc; reflexivity|apply reachesIn_refl]. }
    eapply reachesIn_step; [simpl; rewrite Hc; reflexivity|].
    exact (engine_children_counted (fun x => x) d (MaybeErrorValue i v)
             fnMaybeError frames [] (List.Forall_nil _) v IHv [] [] cache
             eq_refl).
  - destruct (truthy (cacheGet cache (BranchedValue i pfx v cases)))
      as [cached|] eqn:Hc.
    { eapply reachesIn_step;
        [simpl; rewrite Hc; reflexivity|apply reachesIn_refl]. }
    eapply reachesIn_step; [simpl; rewrite Hc; reflexivity|].
    exact (engine_children_counted (fun x => x) d
             (BranchedValue i pfx v cases) (fnBranched pfx) frames
             cases H v IHv [] [] cache eq_refl).
  - destruct (truthy (cacheGet cache (FuncValue i t stack))) as [cached|] eqn:Hc.
    { eapply reachesIn_step;
        [simpl; rewrite Hc; reflexivity|apply reachesIn_refl]. }
    destruct (cutoffHit br t d) eqn:Hcut.
    { eapply reachesIn_step; [simpl; rewrite Hc, Hcut; reflexivity|].
      apply reachesIn_refl. }
    destruct stack as [|[id0 v0] rest].
    { eapply reachesIn_step; [simpl; rewrite Hc, Hcut; reflexivity|].
      apply reachesIn_refl. }
    eapply reachesIn_step; [simpl; rewrite Hc, Hcut; reflexivity|].
    inversion H as [|? ? H0 Hrest]; subst.
    exact (engine_children_counted (fun e : BindingId * Value => e.2)
             (newDepth br t d) (FuncValue i t ((id0, v0) :: rest))
             (fnFunc t ((id0, v0) :: rest)) frames rest Hrest (id0, v0) H0
             [] [] cache eq_refl).
  - destruct (truthy (cacheGet cache (ForeignValue i))) as [cached|] eqn:Hc.
    { eapply reachesIn_step;
        [simpl; rewrite Hc; reflexivity|apply reachesIn_refl]. }
    apply reachesIn_raise. simpl. by rewrite Hc.
Qed.

(** A call is over after [evalCost] iterations and the one that leaves the
    loop. *)
Lemma stringifyValue_within (v : Value) (cache : option Cache) (fuel : nat) :
  evalCost toString br v 0 cache < fuel ->
  stringifyValue toString fuel v br cache
  = Some (evalValue toString br v 0 cache).
Proof.
  intros Hfuel.
  pose proof (engine_simulated_counted v 0%N cache []) as H.
  replace fuel with (evalCost toString br v 0 cache
                     + S (fuel - S (evalCost toString br v 0 cache))) by lia.
  unfold stringifyValue. rewrite H.
  by destruct (evalValue toString br v 0 cache) as [[s|msg] c].
Qed.

(** A call that returns a string has not left the loop before. *)
Lemma stringifyValue_not_before (v : Value) (cache : option Cache) fuel s c' :
  evalValue toString br v 0 cache = (Ok s, c') ->
  fuel <= evalCost toString br v 0 cache ->
  stringifyValue toString fuel v br cache = None.
Proof.
  intros Hev Hfuel.
  pose proof (engine_simulated_counted v 0%N cache [] 0) as H.
  rewrite Hev, Nat.add_0_r in H. simpl in H.
  destruct (stringifyValue toString fuel v br cache) as [r|] eqn:Hr; [|done].
  unfold stringifyValue in Hr.
  pose proof (loop_mono toString br _ _ _ _ _ Hr
                (evalCost toString br v 0 cache - fuel)) as Hm.
  replace (fuel + (evalCost toString br v 0 cache - fuel))
    with (evalCost toString br v 0 cache) in Hm by lia.
  congruence.
Qed.

End Counting.

(** ** Bounds on the number of iterations *)

Lemma bind_length_le {A B} (f : A -> list B) (l : list A) (x : A) :
  x ∈ l -> length (f x) <= length (l ≫= f).
Proof.
  induction l as [|y l IH]; intros Hx; [by apply elem_of_nil in Hx|].
  cbn [mbind list_bind]. rewrite length_app.
  apply elem_of_cons in Hx as [->|Hx]; [lia|].
  specialize (IH Hx). cbn [mbind] in IH. lia.
Qed.

Lemma subvalues_length_le (v : Value) :
  forall w, w ∈ subvalues v -> length (subvalues w) <= length (subvalues v).
Proof.
  induction v as [i|i|i|i|i|i v IHv|i pfx v cases IHv H|i t stack H|i]
    using Value_nested_ind; intros w Hw; simpl in Hw;
    apply elem_of_cons in Hw as [->|Hw]; try done;
    try (by apply elem_of_nil in Hw).
  - specialize (IHv w Hw). simpl. lia.
  - cbn [subvalues]. rewrite length_cons, length_app.
    apply elem_of_app in Hw as [Hw|Hw]; [specialize (IHv w Hw); lia|].
    apply list_elem_of_bind in Hw as (x & Hx & Hin).
    rewrite Forall_forall in H. specialize (H x Hin w Hx).
    pose proof (bind_length_le subvalues cases x Hin). lia.
  - cbn [subvalues]. rewrite length_cons.
    apply list_elem_of_bind in Hw as (x & Hx & Hin).
    rewrite Forall_forall in H. specialize (H x Hin w Hx).
    pose proof (bind_length_le (fun e : BindingId * Value => subvalues e.2)
                  stack x Hin). simpl in *. lia.
Qed.

(** A node below a child of [v] is not [v]. *)
Lemma subvalues_child_proper v c w :
  c ∈ children v -> w ∈ subvalues c -> w <> v.
Proof.
  intros Hc Hw ->. apply subvalues_length_le in Hw.
  assert (length (subvalues c) < length (subvalues v)); [|lia].
  clear Hw.
  destruct v as [i|i|i|i|i|i inner|i pfx cond cases|i t stack|i];
    simpl in Hc; try (by apply elem_of_nil in Hc).
  - apply list_elem_of_singleton in Hc as ->. simpl. lia.
  - cbn [subvalues]. rewrite length_cons, length_app.
    apply elem_of_cons in Hc as [->|Hc]; [lia|].
    pose proof (bind_length_le subvalues cases c Hc). lia.
  - cbn [subvalues]. rewrite length_cons.
    apply list_elem_of_In, in_map_iff in Hc as (e & <- & He).
    apply list_elem_of_In in He.
    pose proof (bind_length_le (fun e : BindingId * Value => subvalues e.2)
                  stack e He). simpl in *. lia.
Qed.

Section CostBounds.

Variable toString : Value -> string.
Variable br : option BlockRecursionProps.

Lemma costList_unfolding {A} (proj : A -> Value) (d : N) (l : list A) :
  Forall (fun e => forall d c,
            evalCost toString br (proj e) d c
            < 2 * length (subvalues (proj e))) l ->
  forall c,
    costList (fun e => evalValue toString br (proj e) d)
      (fun e => evalCost toString br (proj e) d) l c
    <= 2 * length (l ≫= (fun e => subvalues (proj e))).
Proof.
  induction 1 as [|x l Hx _ IH]; intros c; [simpl; lia|].
  cbn [costList]. rewrite bind_cons, length_app. specialize (Hx d c).
  destruct (evalValue toString br (proj x) d c) as [[s|msg] c1]; [|lia].
  specialize (IH c1). lia.
Qed.

(** Every node of the unfolding costs at most two iterations. *)
Lemma evalCost_unfolding (v : Value) :
  forall d c, evalCost toString br v d c < 2 * length (subvalues v).
Proof.
  induction v as [i|i|i|i|i|i v IHv|i pfx v cases IHv H|i t stack H|i]
    using Value_nested_ind; intros d c;
    unfold evalCost; fold (evalCost toString br);
    (destruct (truthy (cacheGet c _)); [cbn [subvalues length]; lia|]);
    try (cbn [subvalues length]; lia).
  - pose proof (costList_unfolding (fun x => x) d [v]
                  ltac:(constructor; [exact IHv|constructor]) c) as Hl.
    rewrite bind_cons, app_nil_r in Hl.
    cbn [subvalues length]. lia.
  - pose proof (costList_unfolding (fun x => x) d (v :: cases)
                  ltac:(by constructor) c) as Hl.
    rewrite bind_cons in Hl.
    change (fun e : Value => subvalues e) with subvalues in Hl.
    cbn [subvalues length]. lia.
  - destruct (cutoffHit br t d); [cbn [subvalues length]; lia|].
    destruct stack as [|e stack]; [cbn [subvalues length]; lia|].
    pose proof (costList_unfolding (fun e : BindingId * Value => e.2)
                  (newDepth br t d) (e :: stack) H c) as Hl.
    cbn [subvalues length]. lia.
Qed.

Lemma costList_pushed {A} (proj : A -> Value) (d : N) (l : list A) :
  Forall (fun e => forall d c,
            evalCost toString br (proj e) d c
            <= 1 + 2 * sum_list_with arity
                         (evalPushed toString br (proj e) d c)) l ->
  forall c,
    costList (fun e => evalValue toString br (proj e) d)
      (fun e => evalCost toString br (proj e) d) l c
    <= 2 * length l
       + 2 * sum_list_with arity
               (pushedList (fun e => evalValue toString br (proj e) d)
                  (fun e => evalPushed toString br (proj e) d) l c).
Proof.
  induction 1 as [|x l Hx _ IH]; intros c; simpl; [lia|].
  rewrite sum_list_with_app. specialize (Hx d c).
  destruct (evalValue toString br (proj x) d c) as [[s|msg] c1]; [|simpl; lia].
  specialize (IH c1). lia.
Qed.

(** The iterations are paid for by the frames pushed: two for each child of
    the owner of a frame. *)
Lemma evalCost_pushed (v : Value) :
  forall d c,
    evalCost toString br v d c
    <= 1 + 2 * sum_list_with arity (evalPushed toString br v d c).
Proof.
  induction v as [i|i|i|i|i|i v IHv|i pfx v cases IHv H|i t stack H|i]
    using Value_nested_ind; intros d c;
    unfold evalCost, evalPushed;
    fold (evalCost toString br); fold (evalPushed toString br);
    (destruct (truthy (cacheGet c _)); [simpl; lia|]);
    try (simpl; lia).
  - pose proof (costList_pushed (fun x => x) d [v]
                  ltac:(constructor; [exact IHv|constructor]) c) as Hl.
    cbn [sum_list_with]. unfold arity at 1. cbn [children length] in *. lia.
  - pose proof (costList_pushed (fun x => x) d (v :: cases)
                  ltac:(by constructor) c) as Hl.
    cbn [sum_list_with]. unfold arity at 1. cbn [children] in *. lia.
  - destruct (cutoffHit br t d); [simpl; lia|].
    destruct stack as [|e stack]; [simpl; lia|].
    pose proof (costList_pushed (fun e : BindingId * Value => e.2)
                  (newDepth br t d) (e :: stack) H c) as Hl.
    cbn [sum_list_with]. unfold arity at 1. cbn [children].
    rewrite length_map. lia.
Qed.

End CostBounds.

(** X6: whatever the cutoff and the cache, the loop is left after at most
    two iterations per node of the unfolded graph: with that much fuel the
    call returns or throws, and more fuel does not change the answer. *)
Theorem iterations_at_most_twice_unfolding (toString : Value -> string)
    (v : Value) (br : option BlockRecursionProps) (cache : option Cache) :
  exists r, forall fuel,
    stringifyValue toString (2 * length (subvalues v) + fuel) v br cache
    = Some r.
Proof.
  exists (evalValue toString br v 0 cache). intros fuel.
  apply stringifyValue_within.
  pose proof (evalCost_unfolding toString br v 0 cache). lia.
Qed.

Section NoCacheCost.

Variable toString : Value -> string.

Lemma costList_no_cache {A} (proj : A -> Value) (d : N) (l : list A) :
  Forall (fun e => containsForeign (proj e) = false ->
            forall d, S (evalCost toString None (proj e) d None)
                      = 2 * length (subvalues (proj e))) l ->
  existsb (fun e => containsForeign (proj e)) l = false ->
  costList (fun e => evalValue toString None (proj e) d)
    (fun e => evalCost toString None (proj e) d) l None
  = 2 * length (l ≫= (fun e => subvalues (proj e))).
Proof.
  induction 1 as [|x l Hx _ IH]; intros Hex; [done|].
  simpl in Hex. apply orb_false_iff in Hex as [Hfx Hfl].
  cbn [costList]. rewrite bind_cons, length_app.
  specialize (Hx Hfx d). specialize (IH Hfl).
  rewrite evalValue_no_cache.
  pose proof (renderValue_throwsWhen toString None (proj x) d) as Hr.
  rewrite visitsForeign_none, Hfx in Hr.
  destruct (renderValue toString None (proj x) d) as [s|msg];
    [lia|by destruct Hr].
Qed.

(** Without cache or cutoff every node of the unfolding is visited, each
    for two iterations. *)
Lemma evalCost_no_cache (v : Value) :
  containsForeign v = false ->
  forall d, S (evalCost toString None v d None) = 2 * length (subvalues v).
Proof.
  induction v as [i|i|i|i|i|i v IHv|i pfx v cases IHv H|i t stack H|i]
    using Value_nested_ind; intros Hf d;
    unfold evalCost; fold (evalCost toString None);
    cbn [cacheGet truthy cutoffHit]; try done.
  - rewrite (costList_no_cache (fun x => x) d [v]);
      [|constructor; [exact IHv|constructor]|simpl in *; by rewrite Hf].
    rewrite bind_cons, app_nil_r. cbn [subvalues length]. lia.
  - rewrite (costList_no_cache (fun x => x) d (v :: cases));
      [|by constructor|exact Hf].
    rewrite bind_cons. change (fun e : Value => subvalues e) with subvalues.
    cbn [subvalues length]. lia.
  - destruct stack as [|e stack]; [done|].
    rewrite (costList_no_cache (fun e : BindingId * Value => e.2)
               (newDepth None t d) (e :: stack)); [|exact H|exact Hf].
    cbn [subvalues length]. lia.
Qed.

End NoCacheCost.

(** X7: with neither cutoff nor cache, on a graph free of foreign objects,
    the call takes exactly two iterations per node of the unfolded graph:
    it has not returned with less fuel, and returns its string with that
    much; a node that is reachable along several paths is traversed once
    per path. *)
Theorem no_cache_visits_every_occurrence (toString : Value -> string)
    (v : Value) :
  containsForeign v = false ->
  exists s,
    (forall fuel,
        fuel < 2 * length (subvalues v) ->
        stringifyValue toString fuel v None None = None)
    /\ (forall fuel,
          2 * length (subvalues v) <= fuel ->
          stringifyValue toString fuel v None None = Some (Ok s, None)).
Proof.
  intros Hf.
  pose proof (evalCost_no_cache toString v Hf 0%N) as Hcost.
  pose proof (evalValue_no_cache toString None v 0) as Hev.
  pose proof (renderValue_throwsWhen toString None v 0) as Hr.
  rewrite visitsForeign_none, Hf in Hr.
  destruct (renderValue toString None v 0) as [s|msg]; [|by destruct Hr].
  exists s. split; intros fuel Hfuel.
  - eapply stringifyValue_not_before; [exact Hev|lia].
  - rewrite stringifyValue_within by lia. by rewrite Hev.
Qed.

Lemma no_cache_visits_every_occurrence_witness :
  exists s,
    (forall fuel,
        fuel < 2 * length (subvalues (diamond 3)) ->
        stringifyValue sampleToString fuel (diamond 3) None None = None)
    /\ (forall fuel,
          2 * length (subvalues (diamond 3)) <= fuel ->
          stringifyValue sampleToString fuel (diamond 3) None None
          = Some (Ok s, None)).
Proof.
  exact (no_cache_visits_every_occurrence sampleToString (diamond 3) eq_refl).
Defined.

(** ** Sharing: one expansion per object *)

Lemma cachedAt_insert_same (m : Cache) i s :
  s <> "" -> cachedAt (<[i := s]> m) i.
Proof.
  intros Hs. unfold cachedAt. rewrite lookup_insert_eq.
  rewrite truthy_nonempty by done. by eexists.
Qed.

Lemma cachedAt_insert_keep (m : Cache) i j s :
  s <> "" -> cachedAt m j -> cachedAt (<[i := s]> m) j.
Proof.
  intros Hs Hj. destruct (decide (i = j)) as [->|Hne].
  - by apply cachedAt_insert_same.
  - unfold cachedAt. by rewrite lookup_insert_ne.
Qed.

Lemma freshlyPushed_nil m inside : freshlyPushed m m [] inside.
Proof.
  split; [done|]. split; [|constructor].
  intros w Hw. by apply elem_of_nil in Hw.
Qed.

Section Sharing.

Variable toString : Value -> string.
Variable br : option BlockRecursionProps.
Variable root : Value.
Hypothesis root_coherent : coherent root.

Lemma pushedList_fresh {A} (proj : A -> Value) (d : N) (l : list A) :
  Forall (fun e => sharesOnce toString br root (proj e)) l ->
  (forall e, e ∈ l -> proj e ∈ subvalues root) ->
  forall m strs c',
    evalList (fun e => evalValue toString br (proj e) d) l (Some m)
    = (Ok strs, c') ->
    exists m',
      c' = Some m'
      /\ freshlyPushed m m'
           (pushedList (fun e => evalValue toString br (proj e) d)
              (fun e => evalPushed toString br (proj e) d) l (Some m))
           (fun w => exists e, e ∈ l /\ w ∈ subvalues (proj e)).
Proof.
  induction 1 as [|x l Hx _ IH]; intros Hin m strs c' Hev.
  - simpl in Hev. inversion Hev; subst. exists m. split; [done|].
    apply freshlyPushed_nil.
  - cbn [evalList pushedList] in *.
    destruct (evalValue toString br (proj x) d (Some m))
      as [[s1|msg] c1] eqn:Hx1; [|discriminate].
    destruct (Hx d m s1 c1) as (m1 & -> & Hmono1 & Hfresh1 & Hnd1);
      [apply Hin; left|done|].
    destruct (evalList _ l (Some m1)) as [[strs'|msg] c2] eqn:Hl;
      [|discriminate].
    inversion Hev; subst.
    destruct (IH (fun e He => Hin e (list_elem_of_further _ _ _ He))
                m1 strs' c' Hl)
      as (m' & -> & Hmono2 & Hfresh2 & Hnd2).
    exists m'. split; [done|]. split; [by auto|]. split.
    + intros w Hw. apply elem_of_app in Hw as [Hw|Hw].
      * destruct (Hfresh1 w Hw) as (Hsub & Hmiss & Hhit).
        split; [exists x; split; [left|done]|]. auto.
      * destruct (Hfresh2 w Hw) as ((e & He & Hsub) & Hmiss & Hhit).
        split; [exists e; split; [by right|done]|]. auto.
    + rewrite fmap_app. apply NoDup_app. split; [done|]. split; [|done].
      intros i Hi1 Hi2.
      apply list_elem_of_fmap in Hi1 as (w1 & -> & Hw1).
      apply list_elem_of_fmap in Hi2 as (w2 & Heq & Hw2).
      destruct (Hfresh1 w1 Hw1) as (_ & _ & Hhit).
      destruct (Hfresh2 w2 Hw2) as (_ & Hmiss & _).
      rewrite Heq in Hhit. contradiction.
Qed.

(** The case of a value that is expanded: [l] are its children. *)
Lemma expanded_shares_once {A} (proj : A -> Value) (l : list A) v f d' :
  (forall e, e ∈ l -> proj e ∈ children v) ->
  combinatorOf v = Some f ->
  Forall (fun e => sharesOnce toString br root (proj e)) l ->
  v ∈ subvalues root ->
  forall m s c',
    truthy (cacheGet (Some m) v) = None ->
    combine v f
      (evalList (fun e => evalValue toString br (proj e) d') l (Some m))
    = (Ok s, c') ->
    exists m',
      c' = Some m'
      /\ freshlyPushed m m'
           (v :: pushedList (fun e => evalValue toString br (proj e) d')
                   (fun e => evalPushed toString br (proj e) d') l (Some m))
           (fun w => w ∈ subvalues v).
Proof.
  intros Hchildren Hf Hall Hv m s c' Hmiss Hc.
  destruct (combine_recorded _ _ _ _ _ Hf Hc) as (c1 & -> & Hr & Hs).
  destruct (evalList _ l (Some m)) as [[strs|msg] c2] eqn:Hl;
    [|discriminate]. simpl in Hr. subst c2.
  destruct (pushedList_fresh proj d' l Hall) with (m := m) (strs := strs)
    (c' := c1) as (m1 & -> & Hmono & Hfresh & Hnd); [|done|].
  { intros e He. eapply subvalues_inside; [exact Hv|]. by apply Hchildren. }
  exists (<[ident v := s]> m1). split; [done|]. split; [|split].
  - intros i Hi. apply cachedAt_insert_keep; auto.
  - intros w Hw. apply elem_of_cons in Hw as [->|Hw].
    + split; [apply subvalues_self|]. split.
      * unfold cachedAt. simpl in Hmiss. rewrite Hmiss. by intros [? ?].
      * by apply cachedAt_insert_same.
    + destruct (Hfresh w Hw) as ((e & He & Hsub) & Hmiss' & Hhit).
      split; [|split; [done|by apply cachedAt_insert_keep]].
      eapply subvalues_trans; [|exact Hsub].
      by apply subvalues_child, Hchildren.
  - rewrite fmap_cons. apply NoDup_cons. split; [|done].
    intros Hi. apply list_elem_of_fmap in Hi as (w & Heq & Hw).
    destruct (Hfresh w Hw) as ((e & He & Hsub) & _ & _).
    assert (Hwroot : w ∈ subvalues root).
    { eapply subvalues_trans; [exact Hv|].
      eapply subvalues_trans; [|exact Hsub].
      by apply subvalues_child, Hchildren. }
    assert (v = w) by (by apply root_coherent). subst w.
    by apply (subvalues_child_proper v (proj e) v (Hchildren e He) Hsub).
Qed.

Lemma evalValue_shares_once (v : Value) : sharesOnce toString br root v.
Proof.
  induction v as [i|i|i|i|i|i v IHv|i pfx v cases IHv H|i t stack H|i]
    using Value_nested_ind; intros d m s c' Hv;
    unfold evalValue, evalPushed;
    fold (evalValue toString br); fold (evalPushed toString br);
    (destruct (truthy (cacheGet (Some m) _)) as [cached|] eqn:Hhit;
     [intros [= <- <-]; exists m; split; [done|apply freshlyPushed_nil]|]);
    try (intros [= <- <-]; exists m; split; [done|apply freshlyPushed_nil]).
  - apply (expanded_shares_once (fun x => x) [v]); try done.
    constructor; [exact IHv|constructor].
  - apply (expanded_shares_once (fun x => x) (v :: cases)); try done.
    by constructor.
  - destruct (cutoffHit br t d);
      [intros [= <- <-]; exists m; split; [done|apply freshlyPushed_nil]|].
    destruct stack as [|e stack];
      [intros [= <- <-]; exists m; split; [done|apply freshlyPushed_nil]|].
    apply (expanded_shares_once (fun e : BindingId * Value => e.2)
             (e :: stack)); try done.
    intros x Hx. unfold children. apply list_elem_of_In, in_map_iff.
    exists x. split; [done|by apply list_elem_of_In].
  - discriminate.
Qed.

End Sharing.

Lemma onePerIdentity_sub (l : list Value) w :
  w ∈ onePerIdentity l -> w ∈ l.
Proof.
  induction l as [|x l IH]; simpl; [done|].
  destruct (decide _); [by right; apply IH|].
  intros Hw. apply elem_of_cons in Hw as [->|Hw]; [by left|by right; apply IH].
Qed.

Lemma onePerIdentity_cover (l : list Value) w :
  w ∈ l -> exists w', w' ∈ onePerIdentity l /\ ident w' = ident w.
Proof.
  induction l as [|x l IH]; intros Hw; [by apply elem_of_nil in Hw|].
  simpl. apply elem_of_cons in Hw as [->|Hw].
  - destruct (decide _) as [Hin|Hout].
    + apply list_elem_of_fmap in Hin as (w' & Heq & Hw'). by exists w'.
    + exists x. split; [by left|done].
  - destruct (IH Hw) as (w' & Hw' & Heq).
    exists w'. split; [|done]. destruct (decide _); [done|by right].
Qed.

Lemma sum_list_with_subset {A} (f : A -> nat) (l k : list A) :
  NoDup l -> (forall x, x ∈ l -> x ∈ k) ->
  sum_list_with f l <= sum_list_with f k.
Proof.
  intros Hnd Hsub.
  destruct (submseteq_Permutation l k (NoDup_submseteq l k Hnd Hsub))
    as [k' Hk].
  rewrite Hk, sum_list_with_app. lia.
Qed.

(** X8: with a cache, on a graph free of foreign objects, the call returns
    within two iterations per child of each distinct object of the graph
    (and two more), however many paths lead to an object: an object is
    expanded at most once, every later visit being a cache hit. *)
Theorem shared_objects_expanded_once (toString : Value -> string)
    (v : Value) (br : option BlockRecursionProps) (m : Cache) :
  coherent v ->
  containsForeign v = false ->
  exists s m', forall fuel,
    stringifyValue toString (2 * sharedWork v + 2 + fuel) v br (Some m)
    = Some (Ok s, Some m').
Proof.
  intros Hco Hf.
  destruct (evalValue toString br v 0 (Some m)) as [[s|msg] c'] eqn:Hev.
  2:{ apply evalValue_throwsForeign in Hev as [_ Hev]. congruence. }
  destruct (evalValue_shares_once toString br v Hco v 0%N m s c'
              (subvalues_self v) Hev) as (m' & -> & _ & Hfresh & Hnd).
  exists s, m'. intros fuel.
  rewrite stringifyValue_within; [by rewrite Hev|].
  pose proof (evalCost_pushed toString br v 0 (Some m)) as Hcost.
  assert (sum_list_with arity (evalPushed toString br v 0 (Some m))
          <= sharedWork v); [|lia].
  apply sum_list_with_subset; [by eapply NoDup_fmap_1|].
  intros w Hw. destruct (Hfresh w Hw) as (Hsub & _ & _).
  destruct (onePerIdentity_cover (subvalues v) w Hsub) as (w' & Hw' & Heq).
  assert (w' = w) as <-; [|done].
  apply Hco; [by apply onePerIdentity_sub|done|done].
Qed.

Lemma diamond_ident n : ident (diamond n) = Pos.of_succ_nat n.
Proof. by destruct n. Qed.

Lemma diamond_subvalues n w :
  w ∈ subvalues (diamond n) -> exists k, w = diamond k.
Proof.
  induction n as [|n IH]; intros Hw; cbn [diamond subvalues] in Hw.
  - apply list_elem_of_singleton in Hw as ->. by exists 0.
  - apply elem_of_cons in Hw as [->|Hw]; [by exists (S n)|].
    rewrite bind_singleton in Hw.
    apply elem_of_app in Hw as [Hw|Hw]; auto.
Qed.

Lemma diamond_coherent n : coherent (diamond n).
Proof.
  intros a b Ha Hb Hid.
  apply diamond_subvalues in Ha as [ka ->].
  apply diamond_subvalues in Hb as [kb ->].
  rewrite !diamond_ident in Hid. by apply SuccNat2Pos.inj in Hid as ->.
Qed.

Example diamond_sizes :
  length (subvalues (diamond 10)) = 2047 /\ sharedWork (diamond 10) = 20.
Proof. split; vm_compute; reflexivity. Qed.

Lemma shared_objects_expanded_once_witness :
  exists s m', forall fuel,
    stringifyValue sampleToString (2 * sharedWork (diamond 10) + 2 + fuel)
      (diamond 10) None (Some ∅)
    = Some (Ok s, Some m').
Proof.
  exact (shared_objects_expanded_once sampleToString (diamond 10) None ∅
           (diamond_coherent 10) eq_refl).
Defined.

(** ** The frame stack stays as low as the graph is deep *)

Section FrameStack.

Variable toString : Value -> string.
Variable br : option BlockRecursionProps.

Local Abbreviation peak := (fun fuel => peakFrames toString fuel br).

Lemma peak_continue fuel state frames cache state' frames' cache' :
  loopBody toString br state frames cache = Continue state' frames' cache' ->
  peak (S fuel) state frames cache
  = Nat.max (length frames) (peak fuel state' frames' cache').
Proof. intros H. simpl. by rewrite H. Qed.

Lemma peak_unfold fuel state frames cache :
  peak (S fuel) state frames cache
  = Nat.max (length frames)
      match loopBody toString br state frames cache with
      | Continue state' frames' cache' => peak fuel state' frames' cache'
      | _ => 0
      end.
Proof. reflexivity. Qed.

Lemma peak_ge fuel state frames cache :
  length frames <= peak fuel state frames cache.
Proof. destruct fuel; simpl; lia. Qed.

Section ChildrenFrames.

Context {A : Type}.
Variable proj : A -> Value.
Variable d : N.
Variable o : Value.
Variable f : list string -> Result string.
Variable frames : list Frame.

Local Abbreviation mk := (itemAt proj d).
Local Abbreviation visitChild :=
  (fun e : A => evalValue toString br (proj e) d).
Local Abbreviation costChild :=
  (fun e : A => evalCost toString br (proj e) d).
Local Abbreviation deepest :=
  (fun l : list A => foldr Nat.max 0 (map (fun e => nestingDepth (proj e)) l)).

Lemma children_frames (rest : list A) :
  Forall (fun e => framesBelow toString br (proj e)) rest ->
  forall x, framesBelow toString br (proj x) ->
  forall strs pre cache fuel,
    length pre = length strs ->
    peak fuel (compute (mk x))
      ({| owner := o; values := (pre ++ map mk (x :: rest))%list;
          stringifiedValues := strs; fn := f |} :: frames) cache
    <= Nat.max (S (length frames) + deepest (x :: rest))
         match combine o (fun l => f (strs ++ l)%list)
                 (evalList visitChild (x :: rest) cache) with
         | (Ok s, cache') =>
             peak (fuel - costList visitChild costChild (x :: rest) cache)
               (reduce s) frames cache'
         | (Throw _, _) => 0
         end.
Proof.
  induction rest as [|y rest IH]; intros Hrest x Hx strs pre cache fuel Hlen.
  - pose (fr := {| owner := o; values := (pre ++ map mk [x])%list;
                   stringifiedValues := strs; fn := f |}).
    fold fr. specialize (Hx d cache (fr :: frames) fuel).
    cbn [costList evalList foldr map].
    change (peakFrames toString fuel br (compute (mk x)) (fr :: frames) cache)
      with (peakFrames toString fuel br
              (compute {| value := proj x; depth := d |}) (fr :: frames)
              cache).
    destruct (evalValue toString br (proj x) d cache) as [[s|msg] c1] eqn:Hev.
    2:{ simpl in *. lia. }
    assert (Hbody : loopBody toString br (reduce s) (fr :: frames) c1
       = match f (strs ++ [s])%list with
         | Ok s' => Continue (reduce s') frames (cacheSet c1 o s')
         | Throw msg => Raise msg c1
         end).
    { simpl. rewrite bool_decide_eq_true_2; [done|].
      rewrite !length_app. simpl. lia. }
    cbn [combine]. cbn [length] in Hx.
    destruct (fuel - evalCost toString br (proj x) d cache) as [|k] eqn:Hk.
    + simpl in Hx.
      destruct (f (strs ++ [s])%list) as [s'|msg];
        [pose proof (peak_ge
           (fuel - (evalCost toString br (proj x) d cache + (1 + 0)))
           (reduce s') frames (cacheSet c1 o s'))|]; simpl in *; lia.
    + rewrite peak_unfold, Hbody in Hx. cbn [length] in Hx.
      destruct (f (strs ++ [s])%list) as [s'|msg]; [|lia].
      replace (fuel - (evalCost toString br (proj x) d cache + (1 + 0)))
        with k by lia.
      lia.
  - inversion Hrest as [|? ? Hy Hrest']; subst.
    pose (fr := {| owner := o; values := (pre ++ map mk (x :: y :: rest))%list;
                   stringifiedValues := strs; fn := f |}).
    fold fr. specialize (Hx d cache (fr :: frames) fuel).
    change (peakFrames toString fuel br (compute (mk x)) (fr :: frames) cache)
      with (peakFrames toString fuel br
              (compute {| value := proj x; depth := d |}) (fr :: frames)
              cache).
    change (evalList visitChild (x :: y :: rest) cache)
      with (match evalValue toString br (proj x) d cache with
            | (Ok s, cache1) =>
                match evalList visitChild (y :: rest) cache1 with
                | (Ok l, cache2) => (Ok (s :: l), cache2)
                | (Throw msg, cache2) => (Throw msg, cache2)
                end
            | (Throw msg, cache1) => (Throw msg, cache1)
            end).
    change (costList visitChild costChild (x :: y :: rest) cache)
      with (evalCost toString br (proj x) d cache +
            match evalValue toString br (proj x) d cache with
            | (Ok _, cache1) =>
                1 + costList visitChild costChild (y :: rest) cache1
            | (Throw _, _) => 0
            end).
    destruct (evalValue toString br (proj x) d cache) as [[s|msg] c1] eqn:Hev.
    2:{ simpl in *. lia. }
    assert (Hbody : loopBody toString br (reduce s) (fr :: frames) c1
       = Continue (compute (mk y))
           ({| owner := o; values := (pre ++ map mk (x :: y :: rest))%list;
               stringifiedValues := (strs ++ [s])%list; fn := f |}
            :: frames) c1).
    { simpl. rewrite bool_decide_eq_false_2.
      2:{ rewrite !length_app. simpl. rewrite length_map. lia. }
      rewrite lookup_app_r; rewrite !length_app; simpl; [|lia].
      replace (length strs + 1 - length pre) with 1 by lia.
      reflexivity. }
    cbn [length] in Hx.
    destruct (fuel - evalCost toString br (proj x) d cache) as [|k] eqn:Hk.
    { simpl in Hx.
      destruct (combine o _ _) as [[s'|msg] c2]; simpl in *; lia. }
    rewrite (peak_continue _ _ _ _ _ _ _ Hbody) in Hx. cbn [length] in Hx.
    specialize (IH Hrest' y Hy (strs ++ [s])%list (pre ++ [mk x])%list c1 k).
    assert (Hlen' : length (pre ++ [mk x])%list = length (strs ++ [s])%list)
      by (rewrite !length_app; simpl; lia).
    specialize (IH Hlen'). rewrite <- app_assoc in IH.
    change ((pre ++ [mk x] ++ map mk (y :: rest))%list)
      with ((pre ++ map mk (x :: y :: rest))%list) in IH.
    replace (fuel - (evalCost toString br (proj x) d cache
                     + (1 + costList visitChild costChild (y :: rest) c1)))
      with (k - costList visitChild costChild (y :: rest) c1) by lia.
    revert IH.
    destruct (evalList visitChild (y :: rest) c1) as [[l|msg] c2] eqn:Hl;
      cbn [combine]; intros IH.
    + rewrite <- app_assoc in IH. cbn [app] in IH.
      cbn [foldr map] in Hx, IH |- *.
      destruct (f (strs ++ s :: l)%list) as [s'|msg]; lia.
    + cbn [foldr map] in Hx, IH |- *. lia.
Qed.

End ChildrenFrames.

Lemma peak_leaf v d cache frames fuel s :
  loopBody toString br (compute {| value := v; depth := d |}) frames cache
  = Continue (reduce s) frames cache ->
  peak fuel (compute {| value := v; depth := d |}) frames cache
  <= Nat.max (length frames + nestingDepth v)
       (peak (fuel - 1) (reduce s) frames cache).
Proof.
  intros Hbody. destruct fuel as [|k]; [simpl; lia|].
  rewrite (peak_continue _ _ _ _ _ _ _ Hbody).
  replace (S k - 1) with k by lia. lia.
Qed.

Lemma peak_push n p a a' b :
  p <= Nat.max (S n + a') b -> a' <= a ->
  Nat.max n p <= Nat.max (n + S a) b.
Proof. lia. Qed.

Lemma frames_below (v : Value) : framesBelow toString br v.
Proof.
  induction v as [i|i|i|i|i|i v IHv|i pfx v cases IHv H|i t stack H|i]
    using Value_nested_ind; intros d cache frames fuel;
    unfold evalValue, evalCost;
    fold (evalValue toString br); fold (evalCost toString br);
    (destruct (truthy (cacheGet cache _)) as [cached|] eqn:Hc;
     [apply peak_leaf; simpl; by rewrite Hc|]);
    try (apply peak_leaf; simpl; by rewrite Hc).
  - destruct fuel as [|k]; [simpl; lia|].
    rewrite (peak_continue _ _ _ _ (compute {| value := v; depth := d |})
               (pushFrame (MaybeErrorValue i v)
                  {| value := v; depth := d |} [] fnMaybeError :: frames)
               cache) by (simpl; by rewrite Hc).
    cbn [nestingDepth].
    eapply peak_push.
    { exact (children_frames (fun x => x) d (MaybeErrorValue i v)
             fnMaybeError frames [] (List.Forall_nil _) v IHv [] []
             cache k eq_refl). }
    first [apply Nat.le_refl|cbn [foldr map]; lia].
  - destruct fuel as [|k]; [simpl; lia|].
    rewrite (peak_continue _ _ _ _ (compute {| value := v; depth := d |})
               (pushFrame (BranchedValue i pfx v cases)
                  {| value := v; depth := d |}
                  (map (fun c => {| value := c; depth := d |}) cases)
                  (fnBranched pfx) :: frames)
               cache) by (simpl; by rewrite Hc).
    cbn [nestingDepth].
    eapply peak_push.
    { exact (children_frames (fun x => x) d (BranchedValue i pfx v cases)
             (fnBranched pfx) frames cases H v IHv [] []
             cache k eq_refl). }
    first [apply Nat.le_refl|cbn [foldr map]; lia].
  - destruct (cutoffHit br t d) eqn:Hcut;
      [apply peak_leaf; simpl; by rewrite Hc, Hcut|].
    destruct stack as [|[id0 v0] rest];
      [apply peak_leaf; simpl; by rewrite Hc, Hcut|].
    destruct fuel as [|k]; [simpl; lia|].
    inversion H as [|? ? H0 Hrest]; subst.
    rewrite (peak_continue _ _ _ _
               (compute {| value := v0; depth := newDepth br t d |})
               (pushFrame (FuncValue i t ((id0, v0) :: rest))
                  {| value := v0; depth := newDepth br t d |}
                  (map (fun e => {| value := e.2;
                                    depth := newDepth br t d |}) rest)
                  (fnFunc t ((id0, v0) :: rest)) :: frames)
               cache) by (simpl; by rewrite Hc, Hcut).
    cbn [nestingDepth].
    eapply peak_push.
    { exact (children_frames (fun e : BindingId * Value => e.2)
             (newDepth br t d) (FuncValue i t ((id0, v0) :: rest))
             (fnFunc t ((id0, v0) :: rest)) frames rest Hrest (id0, v0)
             H0 [] [] cache k eq_refl). }
    first [apply Nat.le_refl|cbn [foldr map]; lia].
  - destruct fuel as [|k]; simpl; rewrite ?Hc; lia.
Qed.

End FrameStack.

(** X9: whatever the cutoff, the cache and the number of iterations, the
    frame stack never holds more frames than there are values with children
    nested in one another in the graph: its height is bounded by the depth
    of the graph, not by its number of nodes. *)
Theorem frame_stack_bounded_by_depth (toString : Value -> string)
    (v : Value) (br : option BlockRecursionProps) (cache : option Cache)
    (fuel : nat) :
  peakFrames toString fuel br (compute {| value := v; depth := 0 |}) []
    cache
  <= nestingDepth v.
Proof.
  pose proof (frames_below toString br v 0%N cache [] fuel) as H.
  destruct (evalValue toString br v 0 cache) as [[s|msg] c']; [|simpl in H; lia].
  destruct (fuel - evalCost toString br v 0 cache); simpl in H; lia.
Qed.

Example diamond_frames :
  nestingDepth (diamond 10) = 10
  /\ peakFrames sampleToString 4094 None
       (compute {| value := diamond 10; depth := 0 |}) [] None = 10.
Proof. split; vm_compute; reflexivity. Qed.
